(** * st-penpals: the matching, deduplication, ranking, paging and fetch core

    A shallow embedding of the algorithmic core of the Reddit penpals
    browser ([streamlit_app.py], [utils/data_loader.py],
    [utils/text_processing.py], [utils/fetch_penpals.py]) together with the
    properties its specification states about it.

    Conventions of the embedding.
    - A Python [str] is a list of characters ([str := list ascii]).  The
      character classes of the model are the ASCII ones: the word characters
      of [\w] are [A-Za-z0-9_], [str.lower] touches [A-Z] only, white space is
      what [str.isspace] accepts below code 128.  Characters above 127 are
      carried along unchanged and belong to no class.
    - A data frame is the list of its rows, in row order.  A row is a [Post];
      the frames are those [_fetch_batch] builds, so the columns
      ['created_time'], ['author'], ['title'] are present.
    - [DataFrame.sort_values] returns the rows of the frame ordered by the
      key.  The program calls it with its default [kind], which does not
      keep rows with equal keys in their incoming order.  What depends on
      the order of such rows is therefore stated for every sort that orders
      the rows ([sorts_by_recency]), or for the sort pandas runs
      ([sort_values_quicksort]).  [stable_sort], which keeps such rows in
      their incoming order, stands for [sort_values] where a statement holds
      whatever that order is; it is [sorted] of Python.
    - Calls that leave the program (the HTTP listing, the clock, the date
      parsers of [datetime]) are explicit inputs of the functions that make
      them. *)

From Stdlib Require Import String Ascii DecimalString.
From Stdlib Require Import Bool Arith NArith ZArith Lia.
From Stdlib Require Import List Permutation Sorted.
Import ListNotations.

(* ===================================================================== *)
(** * Part I.  The program                                                *)
(* ===================================================================== *)

(** ** Python strings *)

Definition str := list ascii.

(** A literal of the source. *)
Definition py (s : string) : str := list_ascii_of_string s.

(** [ord(c)]. *)
Definition code (c : ascii) : N := N_of_ascii c.

Definition in_range (lo hi : N) (c : ascii) : bool :=
  (lo <=? code c)%N && (code c <=? hi)%N.

Definition is_upper (c : ascii) : bool := in_range 65 90 c.
Definition is_lower (c : ascii) : bool := in_range 97 122 c.
Definition is_digit (c : ascii) : bool := in_range 48 57 c.

(** The class [\w] of [re]. *)
Definition is_word_char (c : ascii) : bool :=
  is_upper c || is_lower c || is_digit c || (code c =? 95)%N.

(** [c.isspace()]: tab, line feed, vertical tab, form feed, carriage return,
    the four separators 28..31 and the blank. *)
Definition is_space (c : ascii) : bool := in_range 9 13 c || in_range 28 32 c.

Definition lower_char (c : ascii) : ascii :=
  if is_upper c then ascii_of_N (code c + 32) else c.

(** [s.lower()]. *)
Definition lower (s : str) : str := map lower_char s.

Fixpoint lstrip (s : str) : str :=
  match s with
  | c :: s' => if is_space c then lstrip s' else s
  | [] => []
  end.

Definition rstrip (s : str) : str := rev (lstrip (rev s)).

(** [s.strip()]. *)
Definition strip (s : str) : str := rstrip (lstrip s).

(** [s.split()]: the maximal runs of characters that are not white space.
    [cur] is the run being read, most recent character first. *)
Fixpoint split_from (cur : str) (s : str) : list str :=
  match s with
  | [] => match cur with [] => [] | _ => [rev cur] end
  | c :: s' =>
      if is_space c
      then match cur with
           | [] => split_from [] s'
           | _ => rev cur :: split_from [] s'
           end
      else split_from (c :: cur) s'
  end.

Definition split (s : str) : list str := split_from [] s.

Fixpoint str_eqb (a b : str) : bool :=
  match a, b with
  | [], [] => true
  | x :: a', y :: b' => Ascii.eqb x y && str_eqb a' b'
  | _, _ => false
  end.

(** [a <= b] on [str]: code point by code point, a proper prefix first. *)
Fixpoint str_leb (a b : str) : bool :=
  match a, b with
  | [], _ => true
  | _ :: _, [] => false
  | x :: a', y :: b' =>
      if (code x <? code y)%N then true
      else if (code x =? code y)%N then str_leb a' b'
      else false
  end.

(** [w in words]. *)
Definition str_mem (w : str) (words : list str) : bool :=
  existsb (str_eqb w) words.

(** [str(n)] for a non-negative [int]. *)
Definition str_of_nat (n : nat) : str :=
  py (NilEmpty.string_of_uint (Nat.to_uint n)).

(** [str(x)] for a cell that holds a string or [None]. *)
Definition str_of_cell (x : option str) : str :=
  match x with
  | Some s => s
  | None => py "None"
  end.

(** ** The regular expressions of the matcher

    The two patterns the program builds use five constructs; a pattern is
    the sequence of its items.  The matcher runs under [re.IGNORECASE]. *)

Inductive re_item : Type :=
| NotAfterWord                 (* (?<!\w) *)
| Lit (s : str)                (* re.escape(word) *)
| OptAlt (alts : list str)     (* (?:a|b|...)? *)
| WordBoundary                 (* \b *)
| NotBeforeWord.               (* (?!\w) *)

Definition pattern := list re_item.

(** Whether the character at one side of a position is a word character;
    there is none at either end of the text. *)
Definition is_word_opt (o : option ascii) : bool :=
  match o with
  | Some c => is_word_char c
  | None => false
  end.

(** Two characters that [re.IGNORECASE] identifies. *)
Definition ieq (a b : ascii) : bool := Ascii.eqb (lower_char a) (lower_char b).

(** Consume the literal [lit] from [rest]; [prev] is the character before
    the current position. *)
Fixpoint eat (lit : str) (prev : option ascii) (rest : str)
  : option (option ascii * str) :=
  match lit with
  | [] => Some (prev, rest)
  | c :: lit' =>
      match rest with
      | t :: rest' => if ieq c t then eat lit' (Some t) rest' else None
      | [] => None
      end
  end.

(** Does the pattern match at the current position?  The alternatives of
    an optional group are tried in turn and then the empty one, as the
    backtracking matcher does. *)
Fixpoint match_here (p : pattern) (prev : option ascii) (rest : str) : bool :=
  match p with
  | [] => true
  | NotAfterWord :: p' => negb (is_word_opt prev) && match_here p' prev rest
  | Lit s :: p' =>
      match eat s prev rest with
      | Some (pv, r) => match_here p' pv r
      | None => false
      end
  | OptAlt alts :: p' =>
      existsb (fun a => match eat a prev rest with
                        | Some (pv, r) => match_here p' pv r
                        | None => false
                        end) alts
      || match_here p' prev rest
  | WordBoundary :: p' =>
      xorb (is_word_opt prev) (is_word_opt (hd_error rest))
      && match_here p' prev rest
  | NotBeforeWord :: p' =>
      negb (is_word_opt (hd_error rest)) && match_here p' prev rest
  end.

Fixpoint search_from (p : pattern) (prev : option ascii) (rest : str) : bool :=
  match_here p prev rest
  || match rest with
     | c :: rest' => search_from p (Some c) rest'
     | [] => false
     end.

(** [bool(re.search(p, text, flags=re.IGNORECASE))]. *)
Definition re_search (p : pattern) (text : str) : bool := search_from p None text.

Definition suffixes : list str := map py ["ing"; "ed"; "er"; "s"; "ly"]%string.

(** The pattern [has_keyword_match] and [highlight_keywords_in_text] build
    for one word:
    [(?<!\w)word(?:ing|ed|er|s|ly)?\b] when [len(word) >= 4], otherwise
    [(?<!\w)word(?!\w)]. *)
Definition keyword_pattern (word : str) : pattern :=
  if 4 <=? length word
  then [NotAfterWord; Lit word; OptAlt suffixes; WordBoundary]
  else [NotAfterWord; Lit word; NotBeforeWord].

Definition keyword_search (word : str) (text : str) : bool :=
  re_search (keyword_pattern word) text.

(** ** Posts *)

(** A row of the frame.  [title] and [body] may hold [None]; the two date
    columns are the formatted local time [_fetch_batch] writes and the epoch
    seconds of the listing. *)
Record Post : Type := mkPost {
  post_id : str;
  title : option str;
  body : option str;
  author : str;
  created_time : str;
  created_utc : option Z
}.

(** ** Matcher ([display_subreddit_results.has_keyword_match]) *)

(** [create_input_interface]: the slider's range becomes the list of the
    ages it covers, unless it is the default range. *)
Definition age_keywords_of_range (min_age max_age : nat) : list str :=
  if negb (min_age =? 18) || negb (max_age =? 99)
  then map str_of_nat (seq min_age (max_age + 1 - min_age))
  else [].

Definition stop_words : list str :=
  map py ["and"; "or"; "but"; "in"; "on"; "at"; "to"; "for"; "of"; "with"; "by";
          "is"; "are"; "was"; "were"; "be"; "a"; "an"; "this"; "that"; "it";
          "he"; "she"]%string.

(** What one keyword adds to the set of words: its stripped lower-case form
    and each of its white-space separated words, none shorter than 2. *)
Definition add_keyword (keyword : str) : list str :=
  let keyword := strip keyword in
  if 2 <=? length keyword
  then lower keyword :: filter (fun word => 2 <=? length word) (split (lower keyword))
  else [].

(** The set [words_to_highlight] after the loop over the keywords, as the
    list of its elements (an element may be listed twice). *)
Definition words_to_highlight (keywords : list str) : list str :=
  flat_map add_keyword keywords.

Definition remove_stop_words (words : list str) : list str :=
  filter (fun word => negb (str_mem word stop_words) && (2 <=? length word)) words.

(** The loop [for word in words: if re.search(...): match = True; break]. *)
Definition any_word_matches (words : list str) (text : str) : bool :=
  existsb (fun word => keyword_search word text) words.

Definition full_text (row : Post) : str :=
  str_of_cell (title row) ++ py " " ++ str_of_cell (body row).

Definition title_text (row : Post) : str := str_of_cell (title row).

Definition truthy {A : Type} (l : list A) : bool :=
  match l with [] => false | _ => true end.

Definition regular_match (current_keywords : list str) (row : Post) : bool :=
  if truthy current_keywords
  then any_word_matches (remove_stop_words (words_to_highlight current_keywords))
                        (full_text row)
  else false.

Definition age_match (age_keywords : list str) (row : Post) : bool :=
  if truthy age_keywords
  then any_word_matches (words_to_highlight age_keywords) (title_text row)
  else false.

Definition has_keyword_match (current_keywords age_keywords : list str)
  (row : Post) : bool :=
  if truthy current_keywords && truthy age_keywords
  then regular_match current_keywords row && age_match age_keywords row
  else if truthy age_keywords && negb (truthy current_keywords)
  then age_match age_keywords row
  else regular_match current_keywords row.

(** [relevant_posts] before the recency filter. *)
Definition filter_by_keywords (current_keywords age_keywords : list str)
  (subreddit_data : list Post) : list Post :=
  if truthy current_keywords || truthy age_keywords
  then filter (has_keyword_match current_keywords age_keywords) subreddit_data
  else subreddit_data.

(** ** Sorting a frame *)

Section StableSort.
Context {A : Type}.
Variable le : A -> A -> bool.

(** Put [x] in front of the first row it does not come after. *)
Fixpoint insert_row (x : A) (l : list A) : list A :=
  match l with
  | [] => [x]
  | y :: l' => if le x y then x :: l else y :: insert_row x l'
  end.

(** Rows in the order of [le]; rows that [le] does not tell apart stay in
    the order in which they came. *)
Definition stable_sort (l : list A) : list A := fold_right insert_row [] l.

(** A column that may hold missing values, sorted with
    [na_position='last']: the rows with a value in the order of [le], then
    the rows without one in their incoming order. *)
Definition sort_na_last (isna : A -> bool) (l : list A) : list A :=
  stable_sort (filter (fun x => negb (isna x)) l) ++ filter isna l.

End StableSort.

(** [p] is at least as recent as [q]. *)
Definition more_recent_first (p q : Post) : bool :=
  str_leb (created_time q) (created_time p).

(** The rows most recent first, rows of the same second in their incoming
    order.  It stands for [df.sort_values('created_time', ascending=False)]
    where only the order by the column matters. *)
Definition sort_values_created_time_desc (df : list Post) : list Post :=
  stable_sort more_recent_first df.

(** ** [DataFrame.sort_values] with its default [kind]

    [sort_values(by, ascending=False)] with no [kind] hands the column, read
    from the last row to the first, to NumPy's [argsort(kind='quicksort')]
    and reads the answer backwards again ([pandas.core.sorting.nargsort]).
    For a column of Python strings NumPy runs its generic quick sort
    ([npy_aquicksort]): ranges of more than 17 rows are split around the
    median of their first, middle and last row, shorter ranges are sorted by
    insertion, and a range reached after more than [2 * log2 n] splits is
    sorted by heap sort.  The routine permutes an array of row numbers in
    place; the model permutes the rows themselves. *)

Section Quicksort.
Context {A : Type}.

(** [v[i] < v[j]] on the keys of two rows. *)
Variable lt : A -> A -> bool.

Definition lt_at (a : list A) (i j : nat) : bool :=
  match nth_error a i, nth_error a j with
  | Some x, Some y => lt x y
  | _, _ => false
  end.

(** [a[i] = x]. *)
Fixpoint store (a : list A) (i : nat) (x : A) : list A :=
  match a, i with
  | [], _ => []
  | _ :: a', 0 => x :: a'
  | y :: a', S i' => y :: store a' i' x
  end.

(** [INTP_SWAP(a[i], a[j])]. *)
Definition swap (a : list A) (i j : nat) : list A :=
  match nth_error a i, nth_error a j with
  | Some x, Some y => store (store a i y) j x
  | _, _ => a
  end.

(** [while (less(v[*pi], vp)) ++pi]. *)
Fixpoint scan_up (fuel : nat) (a : list A) (vp : A) (pi : nat) : nat :=
  match fuel with
  | 0 => pi
  | S fuel' =>
      match nth_error a pi with
      | Some x => if lt x vp then scan_up fuel' a vp (S pi) else pi
      | None => pi
      end
  end.

(** [while (less(vp, v[*pj])) --pj]. *)
Fixpoint scan_down (fuel : nat) (a : list A) (vp : A) (pj : nat) : nat :=
  match fuel with
  | 0 => pj
  | S fuel' =>
      match nth_error a pj with
      | Some x => if lt vp x then scan_down fuel' a vp (pj - 1) else pj
      | None => pj
      end
  end.

(** The [for (;;)] loop of the partition. *)
Fixpoint partition_loop (fuel : nat) (a : list A) (vp : A) (pi pj : nat)
  : list A * nat :=
  match fuel with
  | 0 => (a, pi)
  | S fuel' =>
      let pi := scan_up (length a) a vp (S pi) in
      let pj := scan_down (length a) a vp (pj - 1) in
      if pj <=? pi then (a, pi)
      else partition_loop fuel' (swap a pi pj) vp pi pj
  end.

(** One partition of the rows [pl..pr]; the answer is the array and the
    place [pi] of the pivot. *)
Definition quicksort_partition (a : list A) (pl pr : nat) : list A * nat :=
  let pm := pl + (pr - pl) / 2 in
  let a := if lt_at a pm pl then swap a pm pl else a in
  let a := if lt_at a pr pm then swap a pr pm else a in
  let a := if lt_at a pm pl then swap a pm pl else a in
  match nth_error a pm with
  | None => (a, pl)
  | Some vp =>
      let a := swap a pm (pr - 1) in
      let '(a, pi) := partition_loop (length a) a vp pl (pr - 1) in
      (swap a pi (pr - 1), pi)
  end.

(** The row at [pj] moves down past the rows before it that are greater,
    not below [pl]. *)
Fixpoint sink (a : list A) (pl pj : nat) : list A :=
  match pj with
  | 0 => a
  | S pk => if (pl <? pj) && lt_at a pj pk then sink (swap a pj pk) pl pk else a
  end.

(** The insertion sort of the rows [pl..pr]. *)
Fixpoint insertion_from (n : nat) (a : list A) (pl pi : nat) : list A :=
  match n with
  | 0 => a
  | S n' => insertion_from n' (sink a pl pi) pl (S pi)
  end.

Definition insertion_sort (a : list A) (pl pr : nat) : list A :=
  insertion_from (pr - pl) a pl (S pl).

(** Heap sort of the [n] rows from [pl] on; the heap counts its places from
    1.  [sift] is the inner loop: [tmp] goes down from place [i]. *)
Fixpoint sift (fuel : nat) (a : list A) (pl n : nat) (tmp : A) (i j : nat)
  : list A :=
  match fuel with
  | 0 => store a (pl + i - 1) tmp
  | S fuel' =>
      if j <=? n then
        let j := if (j <? n) && lt_at a (pl + j - 1) (pl + j) then j + 1 else j in
        match nth_error a (pl + j - 1) with
        | Some x =>
            if lt tmp x
            then sift fuel' (store a (pl + i - 1) x) pl n tmp j (j + j)
            else store a (pl + i - 1) tmp
        | None => store a (pl + i - 1) tmp
        end
      else store a (pl + i - 1) tmp
  end.

Fixpoint heapify (l : nat) (a : list A) (pl n : nat) : list A :=
  match l with
  | 0 => a
  | S l' =>
      match nth_error a (pl + l - 1) with
      | Some tmp => heapify l' (sift n a pl n tmp l (2 * l)) pl n
      | None => a
      end
  end.

Fixpoint unheap (n : nat) (a : list A) (pl : nat) : list A :=
  match n with
  | 0 => a
  | S n' =>
      match n' with
      | 0 => a
      | _ =>
          match nth_error a (pl + n - 1), nth_error a pl with
          | Some tmp, Some top =>
              unheap n' (sift n (store a (pl + n - 1) top) pl n' tmp 1 2) pl
          | _, _ => a
          end
      end
  end.

Definition aheapsort (a : list A) (pl n : nat) : list A :=
  unheap n (heapify (n / 2) a pl n) pl.

Definition SMALL_QUICKSORT : nat := 16.

(** The outer loop.  [top] tells the head of [while (1)], where the depth
    is tested, from the inner [while], where it is not; [stack] holds the
    ranges put off, each with the depth left for it. *)
Fixpoint quicksort_loop (fuel : nat) (a : list A) (pl pr : nat) (cdepth : Z)
  (top : bool) (stack : list (nat * nat * Z)) : list A :=
  match fuel with
  | 0 => a
  | S fuel' =>
      if top && (cdepth <? 0)%Z then
        match stack with
        | [] => aheapsort a pl (pr - pl + 1)
        | (pl', pr', cdepth') :: stack' =>
            quicksort_loop fuel' (aheapsort a pl (pr - pl + 1))
              pl' pr' cdepth' true stack'
        end
      else if SMALL_QUICKSORT <? pr - pl then
        let '(a, pi) := quicksort_partition a pl pr in
        let cdepth := (cdepth - 1)%Z in
        if pi - pl <? pr - pi
        then quicksort_loop fuel' a pl (pi - 1) cdepth false
               ((pi + 1, pr, cdepth) :: stack)
        else quicksort_loop fuel' a (pi + 1) pr cdepth false
               ((pl, pi - 1, cdepth) :: stack)
      else
        match stack with
        | [] => insertion_sort a pl pr
        | (pl', pr', cdepth') :: stack' =>
            quicksort_loop fuel' (insertion_sort a pl pr)
              pl' pr' cdepth' true stack'
        end
  end.

(** [argsort(kind='quicksort')], as the rows in sorted order. *)
Definition npy_aquicksort (a : list A) : list A :=
  quicksort_loop (2 * length a + 2) a 0 (length a - 1)
    (2 * Z.of_nat (Nat.log2 (length a))) true [].

(** [nargsort(..., ascending=False)]. *)
Definition nargsort_descending (a : list A) : list A :=
  rev (npy_aquicksort (rev a)).

End Quicksort.

(** [created_time] of [p] is less than that of [q], the [<] of Python on
    the two strings. *)
Definition created_before (p q : Post) : bool :=
  negb (str_leb (created_time q) (created_time p)).

(** [df.sort_values('created_time', ascending=False)] as pandas runs it. *)
Definition sort_values_quicksort (df : list Post) : list Post :=
  nargsort_descending created_before df.

(** ** Highlighter ([text_processing.highlight_keywords_in_text]) *)

Definition is_some {A : Type} (o : option A) : bool :=
  match o with Some _ => true | None => false end.

(** The first result of [f] over [l], in the order of [l]. *)
Definition first_some {A B : Type} (f : A -> option B) (l : list A) : option B :=
  fold_right (fun a later => match f a with Some b => Some b | None => later end)
             None l.

(** Where the match of the pattern at the current position ends: the
    character before the end and the text after it.  The alternatives of an
    optional group are tried in the order written, the empty one last; the
    first that lets the rest of the pattern match is taken. *)
Fixpoint match_end (p : pattern) (prev : option ascii) (rest : str)
  : option (option ascii * str) :=
  match p with
  | [] => Some (prev, rest)
  | NotAfterWord :: p' =>
      if negb (is_word_opt prev) then match_end p' prev rest else None
  | Lit s :: p' =>
      match eat s prev rest with
      | Some (pv, r) => match_end p' pv r
      | None => None
      end
  | OptAlt alts :: p' =>
      match first_some (fun a => match eat a prev rest with
                                 | Some (pv, r) => match_end p' pv r
                                 | None => None
                                 end) alts with
      | Some e => Some e
      | None => match_end p' prev rest
      end
  | WordBoundary :: p' =>
      if xorb (is_word_opt prev) (is_word_opt (hd_error rest))
      then match_end p' prev rest else None
  | NotBeforeWord :: p' =>
      if negb (is_word_opt (hd_error rest)) then match_end p' prev rest else None
  end.

(** The [replacement] of the highlighter. *)
Definition badge (original_word : str) : str :=
  py ":violet-badge[" ++ original_word ++ py "]".

(** [re.sub(p, replacement, text, flags=re.IGNORECASE)] from the current
    position on: the matches are taken from left to right and do not
    overlap.  A turn consumes a match or a character, so [fuel] above the
    length of the text is never used up. *)
Fixpoint sub_from (fuel : nat) (p : pattern) (prev : option ascii) (rest : str)
  : str :=
  match fuel with
  | O => rest
  | S fuel' =>
      match match_end p prev rest with
      | Some (pv, r) =>
          match firstn (length rest - length r) rest with
          | [] =>
              badge []
              ++ match rest with
                 | c :: rest' => c :: sub_from fuel' p (Some c) rest'
                 | [] => []
                 end
          | matched => badge matched ++ sub_from fuel' p pv r
          end
      | None =>
          match rest with
          | c :: rest' => c :: sub_from fuel' p (Some c) rest'
          | [] => []
          end
      end
  end.

Definition re_sub (p : pattern) (text : str) : str :=
  sub_from (S (length text)) p None text.

(** The elements of a set built by adding the elements of [l] in turn.  The
    language does not fix the order in which a set of strings is iterated;
    the model lists the elements in the order of their first insertion,
    which matters between words of the same length only. *)
Fixpoint set_of (l : list str) : list str :=
  match l with
  | [] => []
  | w :: l' => w :: filter (fun w' => negb (str_eqb w w')) (set_of l')
  end.

(** [sorted(words, key=len, reverse=True)]. *)
Definition longest_first (a b : str) : bool := length b <=? length a.

Definition highlight_keywords_in_text (text : str) (keywords : list str) : str :=
  if negb (truthy text) || negb (truthy keywords) then text
  else
    let words_to_highlight := remove_stop_words (words_to_highlight keywords) in
    let sorted_words := stable_sort longest_first (set_of words_to_highlight) in
    fold_left (fun highlighted_text word =>
                 re_sub (keyword_pattern word) highlighted_text)
              sorted_words text.

(** ** Deduplicator ([data_loader.filter_deleted_and_deduplicate_users]) *)

Definition deleted_author : str := py "[deleted]".

Definition mask_deleted (p : Post) : bool := str_eqb (author p) deleted_author.

(** [drop_duplicates(subset=['author'], keep='first')]; [seen] holds the
    authors of the rows already passed. *)
Fixpoint drop_duplicates_from (seen : list str) (df : list Post) : list Post :=
  match df with
  | [] => []
  | p :: df' =>
      if str_mem (author p) seen
      then drop_duplicates_from seen df'
      else p :: drop_duplicates_from (author p :: seen) df'
  end.

Definition drop_duplicates_author (df : list Post) : list Post :=
  drop_duplicates_from [] df.

Definition filter_deleted_and_deduplicate_users (df : list Post) : list Post :=
  match df with
  | [] => df
  | _ =>
      let df_sorted := sort_values_created_time_desc df in
      let df_identifiable := filter (fun p => negb (mask_deleted p)) df_sorted in
      let df_deduplicated_identifiable := drop_duplicates_author df_identifiable in
      let df_deleted_users := filter mask_deleted df_sorted in
      let df_final := df_deduplicated_identifiable ++ df_deleted_users in
      sort_values_created_time_desc df_final
  end.

(** The deduplicator over the sort it calls: [sort_values] stands for
    [sort_values('created_time', ascending=False)], called at lines 29 and
    50.  [filter_deleted_and_deduplicate_users] above is this function at
    [sort_values_created_time_desc]. *)
Definition filter_deleted_and_deduplicate_users_with
  (sort_values : list Post -> list Post) (df : list Post) : list Post :=
  match df with
  | [] => df
  | _ =>
      let df_sorted := sort_values df in
      let df_identifiable := filter (fun p => negb (mask_deleted p)) df_sorted in
      let df_deduplicated_identifiable := drop_duplicates_author df_identifiable in
      let df_deleted_users := filter mask_deleted df_sorted in
      let df_final := df_deduplicated_identifiable ++ df_deleted_users in
      sort_values df_final
  end.

(** ** Ranker ([streamlit_app.sort_results]) *)

(** [get_sort_key]: the key column never holds a missing value, a missing
    title gets the empty key. *)
Definition get_sort_key (t : option str) : str :=
  match t with
  | None => []
  | Some t =>
      let title_str := strip t in
      match title_str with
      | c :: rest =>
          if Ascii.eqb c "["%char && (1 <? length title_str)
          then lower rest
          else lower title_str
      | [] => lower title_str
      end
  end.

(** The temporary column ['sort_key'] of a row: always a string. *)
Definition sort_key (p : Post) : option str := Some (get_sort_key (title p)).

Definition key_isna (p : Post) : bool :=
  match sort_key p with None => true | Some _ => false end.

Definition key_leb (p q : Post) : bool :=
  match sort_key p, sort_key q with
  | Some a, Some b => str_leb a b
  | _, _ => true
  end.

Definition sort_results (df : list Post) (sort_option : str) : list Post :=
  match df with
  | [] => df
  | _ =>
      if str_eqb sort_option (py "Date Posted")
      then sort_values_created_time_desc df
      else if str_eqb sort_option (py "Title Alphabetically")
      then sort_na_last key_leb key_isna df
      else df
  end.

(** ** Paginator ([streamlit_app.display_subreddit_results], lines 553-575) *)

Definition posts_per_page : Z := 100.

(** A bound of a slice [l[start:stop]], brought into [0 .. len(l)]. *)
Definition slice_bound (len i : Z) : Z :=
  (if i <? 0 then Z.max 0 (i + len) else Z.min i len)%Z.

(** [df.iloc[start:stop]]. *)
Definition iloc {A : Type} (l : list A) (start stop : Z) : list A :=
  let len := Z.of_nat (length l) in
  let lo := slice_bound len start in
  let hi := slice_bound len stop in
  firstn (Z.to_nat (hi - lo)%Z) (skipn (Z.to_nat lo) l).

Definition max_page (total_posts : Z) : Z :=
  Z.max 0 ((total_posts - 1) / posts_per_page)%Z.

(** The page shown for the page index kept in the session.  The index the
    pagination controls return is only stored for the next run; the slice of
    the current run is cut with this one. *)
Definition clamp_page (total_posts current_page : Z) : Z :=
  if (current_page >? max_page total_posts)%Z then max_page total_posts
  else current_page.

Definition page_posts (relevant_posts : list Post) (current_page : Z) : list Post :=
  let total_posts := Z.of_nat (length relevant_posts) in
  let current_page := clamp_page total_posts current_page in
  let start_idx := (current_page * posts_per_page)%Z in
  let end_idx := Z.min (start_idx + posts_per_page)%Z total_posts in
  iloc relevant_posts start_idx end_idx.

(** [create_pagination_controls]: the number of pages offered. *)
Definition total_pages (total_posts : Z) : Z :=
  ((total_posts - 1) / posts_per_page + 1)%Z.

(** [ceil(a / b)] for a positive [b]. *)
Definition ceil_div (a b : Z) : Z := (- ((- a) / b))%Z.

(** ** Fetcher ([fetch_penpals.RedditPenpalsFetcher.fetch_penpals_posts]) *)

(** What one call of [_fetch_batch] returns: the posts of the batch and the
    cursor [next_after].  A request that fails returns [([], None)]. *)
Definition batch : Type := (list Post * option str)%type.

(** What the loop does to the outside: a listing request with its [limit]
    and [after] arguments, or the pause between two requests. *)
Inductive event : Type :=
| Request (limit : nat) (after : option str)
| Sleep.

(** Truth value of an optional string: [None] and [''] are false. *)
Definition cursor_truthy (c : option str) : bool :=
  match c with
  | Some (_ :: _) => true
  | _ => false
  end.

(** The [while] loop.  [responses] are the answers of the listing to the
    requests still to come, in order; once they run out a request fails.
    Every turn of the loop consumes one answer. *)
Fixpoint fetch_loop (total_posts : nat) (responses : list batch)
  (all_posts : list Post) (after : option str) (events : list event)
  : list Post * list event :=
  if length all_posts <? total_posts then
    let remaining := total_posts - length all_posts in
    let batch_size := Nat.min remaining 100 in
    let events := events ++ [Request batch_size after] in
    match responses with
    | [] => (all_posts, events)
    | (batch_posts, next_after) :: responses' =>
        match batch_posts with
        | [] => (all_posts, events)
        | _ :: _ =>
            let all_posts := all_posts ++ batch_posts in
            let events :=
              if (length all_posts <? total_posts) && cursor_truthy next_after
              then events ++ [Sleep] else events in
            fetch_loop total_posts responses' all_posts next_after events
        end
    end
  else (all_posts, events).

(** The posts returned, and the trace of requests and pauses. *)
Definition fetch_penpals_posts (access_token : option str) (total_posts : nat)
  (responses : list batch) : list Post * list event :=
  if negb (cursor_truthy access_token) then ([], [])
  else
    let '(all_posts, events) := fetch_loop total_posts responses [] None [] in
    (firstn total_posts all_posts, events).

Definition is_request (e : event) : bool :=
  match e with Request _ _ => true | Sleep => false end.

Definition requests (events : list event) : list event := filter is_request events.

(** ** Recency filter ([streamlit_app.filter_posts_by_recency]) *)

(** The value of [row.get('created_time') or row.get('created_utc')]. *)
Inductive date_cell : Type :=
| DateStr (s : str)
| DateNum (z : Z)
| DateNone.

Definition date_field (row : Post) : date_cell :=
  match created_time row with
  | _ :: _ => DateStr (created_time row)
  | [] =>
      match created_utc row with
      | Some z => DateNum z
      | None => DateNone
      end
  end.

(** [timedelta.days] of a difference given in seconds. *)
Definition timedelta_days (diff : Z) : Z := (diff / 86400)%Z.

Section Recency.

(** A naive [datetime] is its number of seconds on the local wall clock.
    [strptime s] is [datetime.strptime(s, '%Y-%m-%d %H:%M:%S')] and
    [fromtimestamp z] is [datetime.fromtimestamp(float(z))]; each is [None]
    when the call raises.  [now] is [datetime.now()]. *)
Variable strptime : str -> option Z.
Variable fromtimestamp : Z -> option Z.
Variable now : Z.

Definition get_post_datetime (row : Post) : option Z :=
  match date_field row with
  | DateStr s => strptime s
  | DateNum z => fromtimestamp z
  | DateNone => None
  end.

Definition is_within_timeframe (recency_filter : str) (row : Post) : bool :=
  match get_post_datetime row with
  | None => true
  | Some post_date =>
      let diff := (now - post_date)%Z in
      if str_eqb recency_filter (py "Today") then (timedelta_days diff =? 0)%Z
      else if str_eqb recency_filter (py "Last week") then (timedelta_days diff <=? 7)%Z
      else if str_eqb recency_filter (py "Last month") then (timedelta_days diff <=? 30)%Z
      else if str_eqb recency_filter (py "All time") then true
      else if str_eqb recency_filter (py "More than a month") then true
      else true
  end.

Definition filter_posts_by_recency (df : list Post) (recency_filter : str)
  : list Post :=
  match df with
  | [] => df
  | _ => filter (is_within_timeframe recency_filter) df
  end.

(** The date of a row cannot be read: there is no date, or the parser that
    applies to it raises. *)
Definition date_unparsable (row : Post) : Prop :=
  match date_field row with
  | DateStr s => strptime s = None
  | DateNum z => fromtimestamp z = None
  | DateNone => True
  end.

End Recency.

(** *** A reference instance of the two parsers

    The format the fetcher writes, [YYYY-MM-DD HH:MM:SS] with two-digit
    fields, read into seconds since 1970-01-01 00:00:00 of the local wall
    clock. *)

Definition digit_val (c : ascii) : option Z :=
  if is_digit c then Some (Z.of_N (code c) - 48)%Z else None.

(** Read [n] digits. *)
Fixpoint read_digits (n : nat) (acc : Z) (s : str) : option (Z * str) :=
  match n with
  | O => Some (acc, s)
  | S n' =>
      match s with
      | c :: s' =>
          match digit_val c with
          | Some d => read_digits n' (10 * acc + d)%Z s'
          | None => None
          end
      | [] => None
      end
  end.

(** Read the character [c]. *)
Definition read_char (c : ascii) (s : str) : option str :=
  match s with
  | c' :: s' => if Ascii.eqb c c' then Some s' else None
  | [] => None
  end.

Definition is_leap (y : Z) : bool :=
  ((y mod 4 =? 0) && (negb (y mod 100 =? 0) || (y mod 400 =? 0)))%Z.

Definition days_in_month (y m : Z) : Z :=
  (if m =? 2 then (if is_leap y then 29 else 28)
   else if (m =? 4) || (m =? 6) || (m =? 9) || (m =? 11) then 30
   else 31)%Z.

(** Days from 1970-01-01 to the given day of the proleptic Gregorian
    calendar. *)
Definition days_from_civil (y m d : Z) : Z :=
  (let y := if m <=? 2 then y - 1 else y in
   let era := y / 400 in
   let yoe := y - era * 400 in
   let doy := (153 * (if m >? 2 then m - 3 else m + 9) + 2) / 5 + d - 1 in
   let doe := yoe * 365 + yoe / 4 - yoe / 100 + doy in
   era * 146097 + doe - 719468)%Z.

Definition bind {A B : Type} (x : option A) (f : A -> option B) : option B :=
  match x with
  | Some a => f a
  | None => None
  end.

Notation "x <- e ;; k" := (bind e (fun x => k))
  (at level 61, e at next level, right associativity).
Notation "' p <- e ;; k" := (bind e (fun z => let p := z in k))
  (at level 61, p pattern, e at next level, right associativity).

Definition strptime_fixed (s : str) : option Z :=
  '(y, s) <- read_digits 4 0 s ;;
  s <- read_char "-" s ;;
  '(m, s) <- read_digits 2 0 s ;;
  s <- read_char "-" s ;;
  '(d, s) <- read_digits 2 0 s ;;
  s <- read_char " " s ;;
  '(hh, s) <- read_digits 2 0 s ;;
  s <- read_char ":" s ;;
  '(mm, s) <- read_digits 2 0 s ;;
  s <- read_char ":" s ;;
  '(ss, s) <- read_digits 2 0 s ;;
  match s with
  | _ :: _ => None
  | [] =>
      if ((1 <=? y) && (1 <=? m) && (m <=? 12) && (1 <=? d)
          && (d <=? days_in_month y m) && (hh <=? 23) && (mm <=? 59)
          && (ss <=? 59))%Z
      then Some (days_from_civil y m d * 86400 + hh * 3600 + mm * 60 + ss)%Z
      else None
  end.

(** Local time at a fixed offset [tz] from UTC; the years 1 to 9999 are
    the range of [datetime]. *)
Definition fromtimestamp_fixed (tz : Z) (z : Z) : option Z :=
  let t := (z + tz)%Z in
  if ((days_from_civil 1 1 1 * 86400 <=? t)
      && (t <? days_from_civil 10000 1 1 * 86400))%Z
  then Some t else None.

(** ** Date badge and date label
    ([streamlit_app.get_badge_color_for_date], [text_processing.format_post_date]) *)

(** [str(n)] for an [int]. *)
Definition str_of_Z (n : Z) : str := py (NilEmpty.string_of_int (Z.to_int n)).

Section DateDisplay.

(** The parsers and the clock as in the recency filter; the clock is read
    to the second, which is all the two functions use of it.
    [error_text c] is [str(e)] for the exception [e] the parser raises on
    the value [c]. *)
Variable strptime : str -> option Z.
Variable fromtimestamp : Z -> option Z.
Variable now : Z.
Variable error_text : date_cell -> str.

Definition get_badge_color_for_date (row : Post) : str :=
  match date_field row with
  | DateNone => py "green"
  | _ =>
      match get_post_datetime strptime fromtimestamp row with
      | Some date_obj =>
          let days := timedelta_days (now - date_obj) in
          if (days <=? 1)%Z then py "green"
          else if (days <=? 30)%Z then py "orange"
          else py "red"
      | None => py "green"
      end
  end.

(** [f"{n} {unit}{'s' if n != 1 else ''} ago"]. *)
Definition ago (n : Z) (unit : string) : str :=
  str_of_Z n ++ py " " ++ py unit ++ (if (n =? 1)%Z then [] else py "s") ++ py " ago".

Definition format_post_date (row : Post) : str :=
  match date_field row with
  | DateNone => py "Unknown date"
  | date_cell =>
      match get_post_datetime strptime fromtimestamp row with
      | Some date_obj =>
          let diff := (now - date_obj)%Z in
          let seconds := diff in
          let minutes := (seconds / 60)%Z in
          let hours := (minutes / 60)%Z in
          let days := timedelta_days diff in
          let weeks := (days / 7)%Z in
          let months := (days / 30)%Z in
          let years := (days / 365)%Z in
          if (seconds <? 60)%Z then py "just now"
          else if (minutes <? 60)%Z then ago minutes "minute"
          else if (hours <? 24)%Z then ago hours "hour"
          else if (days <? 7)%Z then ago days "day"
          else if (weeks <? 4)%Z then ago weeks "week"
          else if (months <? 12)%Z then ago months "month"
          else ago years "year"
      | None =>
          match date_cell with
          | DateStr s =>
              if 8 <? length s then firstn 10 s
              else py "Parse error: " ++ firstn 30 (error_text date_cell)
          | _ => py "Parse error: " ++ firstn 30 (error_text date_cell)
          end
      end
  end.

(** ** The results of one tab
    ([streamlit_app.display_subreddit_results], from the frame of the
    subreddit to the posts of the page shown; a run in which the page
    selector is not touched) *)

Definition display_subreddit_results (current_keywords age_keywords : list str)
  (current_recency current_sort : str) (current_page : Z)
  (subreddit_data : list Post) : list Post :=
  match subreddit_data with
  | [] => []
  | _ =>
      let relevant_posts :=
        filter_by_keywords current_keywords age_keywords subreddit_data in
      let relevant_posts :=
        filter_posts_by_recency strptime fromtimestamp now relevant_posts
          current_recency in
      match relevant_posts with
      | [] => []
      | _ =>
          let relevant_posts := sort_results relevant_posts current_sort in
          page_posts relevant_posts current_page
      end
  end.

End DateDisplay.

(** ** Environment file ([fetch_penpals.load_env], the branch that reads
    [.env]) *)

(** [s.split(sep, 1)] for a separator that occurs in [s]. *)
Fixpoint split_first (sep : ascii) (s : str) : option (str * str) :=
  match s with
  | [] => None
  | c :: s' =>
      if Ascii.eqb c sep then Some ([], s')
      else match split_first sep s' with
           | Some (before, rest) => Some (c :: before, rest)
           | None => None
           end
  end.

(** The key and the value of a line that passes the test of line 40, as
    lines 41 and 42 strip them. *)
Definition parse_env_line (line : str) : option (str * str) :=
  let line := strip line in
  match line with
  | [] => None
  | c :: _ =>
      if Ascii.eqb c "#"%char then None
      else match split_first "="%char line with
           | Some (key, value) => Some (strip key, strip value)
           | None => None
           end
  end.

(** What the statement [os.environ[key] = value] of line 42 does.  The
    mapping hands both strings to [os.putenv], which raises for an empty
    name and for a string that holds the character of code 0 and makes the
    assignment otherwise.  (The name holds no '=': it is what stands before
    the first one.) *)
Definition nul : ascii := ascii_of_N 0.

Definition holds_nul (s : str) : bool := existsb (Ascii.eqb nul) s.

Definition environ_accepts (key value : str) : bool :=
  match key with
  | [] => false
  | _ => negb (holds_nul key) && negb (holds_nul value)
  end.

(** One line of the file: passed over, assigned, or the exception that
    ends [load_env]. *)
Inductive line_outcome : Type :=
| Skipped
| Assigned (key value : str)
| Raised.

Definition load_env_line (line : str) : line_outcome :=
  match parse_env_line line with
  | None => Skipped
  | Some (key, value) =>
      if environ_accepts key value then Assigned key value else Raised
  end.

(** The loop over the lines: the assignments to [os.environ] made, in
    order, and whether the loop was left by an exception. *)
Fixpoint load_env_lines (lines : list str) : list (str * str) * bool :=
  match lines with
  | [] => ([], false)
  | line :: lines' =>
      match load_env_line line with
      | Skipped => load_env_lines lines'
      | Assigned key value =>
          let '(assignments, raised) := load_env_lines lines' in
          ((key, value) :: assignments, raised)
      | Raised => ([], true)
      end
  end.

(* ===================================================================== *)
(** * Part II.  The properties, in the words of the specification         *)
(* ===================================================================== *)

(** The last character of [s], or [prev] when [s] is empty. *)
Definition last_char (prev : option ascii) (s : str) : option ascii :=
  fold_left (fun _ c => Some c) s prev.

(** No word character stands right before the end of [pre]. *)
Definition no_word_before (pre : str) : Prop :=
  is_word_opt (last_char None pre) = false.

(** No word character stands at the start of [post]. *)
Definition no_word_after (post : str) : Prop :=
  is_word_opt (hd_error post) = false.

(** A word boundary lies between [before] and [post]. *)
Definition boundary_between (before post : str) : Prop :=
  xorb (is_word_opt (last_char None before)) (is_word_opt (hd_error post)) = true.

(** [text] holds the word [w], in any letter case, as a token of its own:
    no word character touches it on either side. *)
Definition standalone_token (w text : str) : Prop :=
  exists pre occ post,
    text = pre ++ occ ++ post /\ lower occ = lower w
    /\ no_word_before pre /\ no_word_after post.

(** [text] holds the word [w], in any letter case, not preceded by a word
    character, followed by at most one of the five suffixes, and ending at a
    word boundary. *)
Definition suffixed_token (w text : str) : Prop :=
  exists pre occ suf post,
    text = pre ++ occ ++ suf ++ post /\ lower occ = lower w
    /\ In (lower suf) ([] :: suffixes)
    /\ no_word_before pre /\ boundary_between (pre ++ occ ++ suf) post.

(** The same for a word that ends in a letter, as ["golf"] does: the
    boundary after it is the absence of a word character. *)
Definition suffixed_word (w text : str) : Prop :=
  exists pre occ suf post,
    text = pre ++ occ ++ suf ++ post /\ lower occ = lower w
    /\ In (lower suf) ([] :: suffixes)
    /\ no_word_before pre /\ no_word_after post.

(** What the matcher looks for, for one word of a word list. *)
Definition word_occurs (w text : str) : Prop :=
  if 4 <=? length w then suffixed_token w text else standalone_token w text.

(** A list of keywords matches a text: one of the words derived from it
    occurs in the text.  Stop words are dropped from the free-text words
    only. *)
Definition free_text_matches (keywords : list str) (text : str) : Prop :=
  exists w, In w (words_to_highlight keywords) /\ str_mem w stop_words = false
            /\ word_occurs w text.

Definition age_words_match (keywords : list str) (text : str) : Prop :=
  exists w, In w (words_to_highlight keywords) /\ word_occurs w text.

(** [p] is the most recent post of author [a] in [df], the first such in
    row order. *)
Definition most_recent_of (a : str) (df : list Post) (p : Post) : Prop :=
  exists before rest,
    df = before ++ p :: rest /\ author p = a
    /\ (forall q, In q before -> author q = a ->
                  str_leb (created_time p) (created_time q) = false)
    /\ (forall q, In q rest -> author q = a ->
                  str_leb (created_time q) (created_time p) = true).

(** Most recent first. *)
Definition sorted_by_recency (df : list Post) : Prop :=
  StronglySorted (fun p q => str_leb (created_time q) (created_time p) = true) df.

(** What [sort_values('created_time', ascending=False)] answers for: the
    rows of the frame, each as often as the frame holds it, most recent
    first.  Nothing is said of the order of rows of the same second. *)
Definition sorts_by_recency (sort_values : list Post -> list Post) : Prop :=
  forall df, Permutation (sort_values df) df /\ sorted_by_recency (sort_values df).

(** [p] is a post of author [a] in [df] and no post of [a] in [df] is more
    recent. *)
Definition a_most_recent_of (a : str) (df : list Post) (p : Post) : Prop :=
  In p df /\ author p = a
  /\ forall q, In q df -> author q = a ->
               str_leb (created_time q) (created_time p) = true.

(** Ascending by the key of the title sort. *)
Definition sorted_by_title (df : list Post) : Prop :=
  StronglySorted
    (fun p q => str_leb (get_sort_key (title p)) (get_sort_key (title q)) = true) df.

(** Every post without a title comes after every post with one. *)
Definition missing_titles_last (df : list Post) : Prop :=
  forall l1 p l2, df = l1 ++ p :: l2 -> title p = None ->
                  forall q, In q l2 -> title q = None.

(** A post with the given title and an empty body. *)
Definition post_titled (t : string) : Post :=
  mkPost (py "id") (Some (py t)) (Some (py "")) (py "someone") (py "") None.

(** A post whose title is missing. *)
Definition untitled_post : Post :=
  mkPost (py "id0") None (Some (py "")) (py "nobody") (py "2025-08-24 22:32:22") None.

Definition sample_post (i : string) : Post :=
  mkPost (py i) (Some (py "hello")) (Some (py "")) (py i)
         (py "2025-08-24 22:32:22") (Some 1756074742%Z).

(** The listing answers every request with the same two posts and no
    cursor. *)
Definition last_page : batch := ([sample_post "p1"; sample_post "p2"], None).

(** [n] posts, numbered from 0 in row order. *)
Definition numbered_posts (n : nat) : list Post :=
  map (fun i => mkPost (str_of_nat i) (Some (py "hello")) (Some (py ""))
                       (str_of_nat i) (py "2025-08-24 22:32:22") None)
      (seq 0 n).

(** Post number [i] of a listing whose posts were all made in one second. *)
Definition same_second_post (i : nat) (a : str) : Post :=
  mkPost (str_of_nat i) (Some (py "hello")) (Some (py "")) a
         (py "2025-08-24 22:32:22") None.

(** Twenty posts of one second, numbered from 0 in row order; rows 3 and 15
    are posts of the author "a", every other row has an author of its own. *)
Definition twenty_posts : list Post :=
  map (fun i => same_second_post i
                  (if (i =? 3) || (i =? 15) then py "a" else str_of_nat i))
      (seq 0 20).

(** A post whose date column holds no date. *)
Definition garbled_post : Post :=
  mkPost (py "id1") (Some (py "hello")) (Some (py "")) (py "someone")
         (py "yesterday") (Some 1756074742%Z).

(** A post of 1 August 2025. *)
Definition august_post : Post :=
  mkPost (py "id2") (Some (py "hello")) (Some (py "")) (py "someone")
         (py "2025-08-01 08:00:00") (Some 1754035200%Z).

(** 24 August 2025, 22:32:22, on the wall clock. *)
Definition sample_now : Z := 1756074742%Z.

(** The character next to a position, in lower case. *)
Definition lower_opt (o : option ascii) : option ascii := option_map lower_char o.

(** The number is written with two digits and, as a keyword, adds itself. *)
Definition two_digit_word (n : nat) : bool :=
  (length (str_of_nat n) =? 2)
  && match add_keyword (str_of_nat n) with
     | [a; b] => str_eqb a (str_of_nat n) && str_eqb b (str_of_nat n)
     | _ => false
     end.

(** The words a keyword with this stripped lower-case form adds are all
    dropped as stop words. *)
Definition stop_word_dropped (s : str) : bool :=
  match remove_stop_words
          (if 2 <=? length s
           then s :: filter (fun word => 2 <=? length word) (split s)
           else []) with
  | [] => true
  | _ => false
  end.

(** The loop of the highlighter over the sorted words. *)
Definition highlight_words (words : list str) (text : str) : str :=
  fold_left (fun highlighted_text word =>
               re_sub (keyword_pattern word) highlighted_text) words text.

(** The [after] argument of a request. *)
Definition after_of (e : event) : option str :=
  match e with
  | Request _ after => after
  | Sleep => None
  end.

(** A trace in which every pause stands between two requests. *)
Inductive paced : list event -> Prop :=
| paced_end : paced []
| paced_request limit after tl :
    paced tl -> paced (Request limit after :: tl)
| paced_sleep limit after limit' after' tl :
    paced (Request limit' after' :: tl) ->
    paced (Request limit after :: Sleep :: Request limit' after' :: tl).

(** A request asks for 1 to 100 posts and for no more than the fetch. *)
Definition request_in_bounds (total_posts : nat) (e : event) : Prop :=
  match e with
  | Request limit _ => 1 <= limit <= 100 /\ limit <= total_posts
  | Sleep => True
  end.


(** No white space at either end. *)
Definition trimmed (s : str) : Prop :=
  forall c rest, (s = c :: rest -> is_space c = false)
                 /\ (s = rest ++ [c] -> is_space c = false).

(** A post of 27 July 2025, 28 days before the sample clock. *)
Definition july_post : Post :=
  mkPost (py "id3") (Some (py "hello")) (Some (py "")) (py "someone")
         (py "2025-07-27 22:32:22") None.

(** A post passes the filters of the side bar. *)
Definition passes_side_bar_filters (strptime : str -> option Z)
  (fromtimestamp : Z -> option Z) (now : Z)
  (current_keywords age_keywords : list str) (current_recency : str)
  (p : Post) : Prop :=
  (truthy current_keywords || truthy age_keywords = true ->
   has_keyword_match current_keywords age_keywords p = true)
  /\ is_within_timeframe strptime fromtimestamp now current_recency p = true.

(* ===================================================================== *)
(** * Part III.  Proofs                                                   *)
(* ===================================================================== *)

(** ** Strings *)

Lemma str_eqb_eq (a b : str) : str_eqb a b = true <-> a = b.
Proof.
  revert b; induction a as [|x a IH]; intros [|y b]; simpl;
    try (split; [discriminate | congruence]); try tauto.
  rewrite andb_true_iff, IH, Ascii.eqb_eq. split.
  - intros [-> ->]; reflexivity.
  - intros H; inversion H; auto.
Qed.

Lemma str_eqb_refl (a : str) : str_eqb a a = true.
Proof. apply str_eqb_eq; reflexivity. Qed.

Lemma str_eqb_neq (a b : str) : str_eqb a b = false <-> a <> b.
Proof.
  rewrite <- str_eqb_eq. destruct (str_eqb a b); split; congruence.
Qed.

Lemma str_leb_total (a b : str) : str_leb a b = true \/ str_leb b a = true.
Proof.
  revert b; induction a as [|x a IH]; intros [|y b]; simpl; auto.
  destruct (N.ltb_spec (code x) (code y)); auto.
  destruct (N.ltb_spec (code y) (code x)); auto.
  assert (E : code x = code y) by lia.
  rewrite E, N.eqb_refl. apply IH.
Qed.

Lemma str_leb_trans (a b c : str) :
  str_leb a b = true -> str_leb b c = true -> str_leb a c = true.
Proof.
  revert b c; induction a as [|x a IH]; intros [|y b] [|z c]; simpl; auto;
    try discriminate.
  destruct (N.ltb_spec (code x) (code y)) as [Hxy|Hxy];
    destruct (N.ltb_spec (code y) (code z)) as [Hyz|Hyz];
    destruct (N.ltb_spec (code x) (code z)) as [Hxz|Hxz]; auto; try lia;
    destruct (N.eqb_spec (code x) (code y));
    destruct (N.eqb_spec (code y) (code z));
    destruct (N.eqb_spec (code x) (code z)); try discriminate; try lia.
  apply IH.
Qed.

Lemma lower_char_idem (c : ascii) : lower_char (lower_char c) = lower_char c.
Proof.
  destruct c as [[] [] [] [] [] [] [] []]; reflexivity.
Qed.

Lemma lower_idem (s : str) : lower (lower s) = lower s.
Proof.
  unfold lower. rewrite map_map. apply map_ext. apply lower_char_idem.
Qed.

Lemma lower_app (a b : str) : lower (a ++ b) = lower a ++ lower b.
Proof. apply map_app. Qed.

Lemma ieq_spec (a b : ascii) : ieq a b = true <-> lower_char a = lower_char b.
Proof. unfold ieq. apply Ascii.eqb_eq. Qed.

Lemma last_char_app (prev : option ascii) (a b : str) :
  last_char prev (a ++ b) = last_char (last_char prev a) b.
Proof. apply fold_left_app. Qed.

(** ** The matcher's regular expressions *)

Lemma eat_spec (lit : str) (prev : option ascii) (rest : str)
  (pv : option ascii) (r : str) :
  eat lit prev rest = Some (pv, r) <->
  exists occ, rest = occ ++ r /\ lower occ = lower lit /\ pv = last_char prev occ.
Proof.
  revert prev rest; induction lit as [|c lit IH]; intros prev rest; simpl.
  - split.
    + intros H; inversion H; subst. exists []; auto.
    + intros (occ & -> & E & ->). destruct occ; [reflexivity | discriminate].
  - destruct rest as [|t rest].
    + split; [discriminate|]. intros (occ & E & L & _).
      destruct occ; discriminate.
    + destruct (ieq c t) eqn:Hc.
      * rewrite IH. apply ieq_spec in Hc. split.
        -- intros (occ & -> & L & ->). exists (t :: occ). simpl.
           repeat split; congruence.
        -- intros (occ & E & L & ->). destruct occ as [|t' occ]; [discriminate|].
           simpl in E, L. inversion E; subst. inversion L.
           exists occ. auto.
      * split; [discriminate|]. intros (occ & E & L & _).
        destruct occ as [|t' occ]; [discriminate|].
        simpl in E, L. inversion E; subst. inversion L.
        assert (ieq c t' = true) by (apply ieq_spec; congruence). congruence.
Qed.

Lemma search_from_spec (p : pattern) (prev : option ascii) (rest : str) :
  search_from p prev rest = true <->
  exists a b, rest = a ++ b /\ match_here p (last_char prev a) b = true.
Proof.
  revert prev; induction rest as [|c rest IH]; intros prev; simpl.
  - rewrite orb_false_r. split.
    + intros H. exists [], []. auto.
    + intros (a & b & E & H). symmetry in E. apply app_eq_nil in E.
      destruct E; subst. exact H.
  - rewrite orb_true_iff, IH. split.
    + intros [H | (a & b & -> & H)].
      * exists [], (c :: rest). auto.
      * exists (c :: a), b. auto.
    + intros (a & b & E & H). destruct a as [|c' a].
      * simpl in E; subst b. left; exact H.
      * simpl in E. inversion E; subst. right. exists a, b. auto.
Qed.

Lemma suffixes_lower (a : str) : In a suffixes -> lower a = a.
Proof.
  unfold suffixes; simpl.
  intros [<- | [<- | [<- | [<- | [<- | []]]]]]; reflexivity.
Qed.

Lemma match_short (w : str) (prev : option ascii) (rest : str) :
  match_here [NotAfterWord; Lit w; NotBeforeWord] prev rest = true <->
  is_word_opt prev = false
  /\ exists occ r, rest = occ ++ r /\ lower occ = lower w /\ no_word_after r.
Proof.
  simpl. rewrite andb_true_iff, negb_true_iff. unfold no_word_after.
  split.
  - intros [Hp H]. split; [assumption|].
    destruct (eat w prev rest) as [[pv r]|] eqn:E; [|discriminate].
    apply eat_spec in E. destruct E as (occ & -> & L & _).
    rewrite andb_true_r, negb_true_iff in H. exists occ, r. auto.
  - intros [Hp (occ & r & -> & L & H)]. split; [assumption|].
    assert (E : eat w prev (occ ++ r) = Some (last_char prev occ, r))
      by (apply eat_spec; exists occ; auto).
    rewrite E, H. reflexivity.
Qed.

Lemma match_long (w : str) (prev : option ascii) (rest : str) :
  match_here [NotAfterWord; Lit w; OptAlt suffixes; WordBoundary] prev rest = true <->
  is_word_opt prev = false
  /\ exists occ suf r,
       rest = occ ++ suf ++ r /\ lower occ = lower w
       /\ In (lower suf) ([] :: suffixes)
       /\ xorb (is_word_opt (last_char (last_char prev occ) suf))
               (is_word_opt (hd_error r)) = true.
Proof.
  cbn [match_here]. rewrite andb_true_iff, negb_true_iff. split.
  - intros [Hp H]. split; [assumption|].
    destruct (eat w prev rest) as [[pv r]|] eqn:E; [|discriminate].
    apply eat_spec in E. destruct E as (occ & -> & L & ->).
    apply orb_true_iff in H. destruct H as [H | H].
    + apply existsb_exists in H. destruct H as (a & Ha & H).
      destruct (eat a (last_char prev occ) r) as [[pv' r']|] eqn:E'; [|discriminate].
      apply eat_spec in E'. destruct E' as (suf & -> & L' & ->).
      rewrite andb_true_r in H. exists occ, suf, r'.
      repeat split; auto. right. rewrite L', (suffixes_lower _ Ha). exact Ha.
    + rewrite andb_true_r in H. exists occ, [], r. repeat split; auto.
      left; reflexivity.
  - intros [Hp (occ & suf & r & -> & L & Hs & H)]. split; [assumption|].
    assert (E : eat w prev (occ ++ suf ++ r) = Some (last_char prev occ, suf ++ r))
      by (apply eat_spec; exists occ; auto).
    rewrite E. apply orb_true_iff. destruct Hs as [Hs | Hs].
    + right. destruct suf; [|discriminate]. simpl in *. rewrite H. reflexivity.
    + left. apply existsb_exists. exists (lower suf). split; [assumption|].
      assert (E' : eat (lower suf) (last_char prev occ) (suf ++ r)
                   = Some (last_char (last_char prev occ) suf, r)).
      { apply eat_spec. exists suf. rewrite lower_idem. auto. }
      rewrite E', H. reflexivity.
Qed.

Lemma keyword_search_short (w text : str) :
  length w < 4 -> keyword_search w text = true <-> standalone_token w text.
Proof.
  intros Hlen. unfold keyword_search, keyword_pattern, re_search.
  destruct (Nat.leb_spec 4 (length w)); [lia|].
  rewrite search_from_spec. unfold standalone_token, no_word_before. split.
  - intros (a & b & -> & Hm). apply match_short in Hm.
    destruct Hm as [Hp (occ & r & -> & L & Hr)]. exists a, occ, r. auto.
  - intros (pre & occ & post & -> & L & Hp & Hr). exists pre, (occ ++ post).
    split; [reflexivity|]. apply match_short. split; [assumption|].
    exists occ, post. auto.
Qed.

Lemma keyword_search_long (w text : str) :
  4 <= length w -> keyword_search w text = true <-> suffixed_token w text.
Proof.
  intros Hlen. unfold keyword_search, keyword_pattern, re_search.
  destruct (Nat.leb_spec 4 (length w)); [|lia].
  rewrite search_from_spec. unfold suffixed_token, no_word_before, boundary_between.
  split.
  - intros (a & b & -> & Hm). apply match_long in Hm.
    destruct Hm as [Hp (occ & suf & r & -> & L & Hs & Hb)].
    exists a, occ, suf, r. repeat split; auto.
    rewrite !last_char_app. exact Hb.
  - intros (pre & occ & suf & post & -> & L & Hs & Hp & Hb).
    exists pre, (occ ++ suf ++ post). split; [reflexivity|].
    apply match_long. split; [assumption|].
    exists occ, suf, post. repeat split; auto.
    rewrite !last_char_app in Hb. exact Hb.
Qed.

Lemma keyword_search_spec (w text : str) :
  keyword_search w text = true <-> word_occurs w text.
Proof.
  unfold word_occurs. destruct (Nat.leb_spec 4 (length w)).
  - apply keyword_search_long; assumption.
  - apply keyword_search_short; assumption.
Qed.

Lemma any_word_matches_spec (words : list str) (text : str) :
  any_word_matches words text = true <->
  exists w, In w words /\ word_occurs w text.
Proof.
  unfold any_word_matches. rewrite existsb_exists.
  split; intros (w & Hw & H); exists w; split; auto;
    apply keyword_search_spec; assumption.
Qed.

(** ** Highlighter *)

Lemma first_some_existsb {A B : Type} (f : A -> bool) (g : A -> option B)
  (l : list A) :
  (forall a, f a = is_some (g a)) -> existsb f l = is_some (first_some g l).
Proof.
  intros H. induction l as [|a l IH]; simpl; [reflexivity|].
  rewrite H. destruct (g a); simpl; [reflexivity | exact IH].
Qed.

(** The pattern matches at a position exactly when its match there has an
    end. *)
Lemma match_here_end (p : pattern) (prev : option ascii) (rest : str) :
  match_here p prev rest = is_some (match_end p prev rest).
Proof.
  revert prev rest; induction p as [|i p IH]; intros prev rest; [reflexivity|].
  destruct i; cbn [match_here match_end].
  - destruct (negb (is_word_opt prev)); simpl; [apply IH | reflexivity].
  - destruct (eat s prev rest) as [[pv r]|]; [apply IH | reflexivity].
  - rewrite IH.
    rewrite (first_some_existsb _
               (fun a => match eat a prev rest with
                         | Some (pv, r) => match_end p pv r
                         | None => None
                         end)).
    + destruct (first_some _ alts); reflexivity.
    + intros a. destruct (eat a prev rest) as [[pv r]|]; [apply IH | reflexivity].
  - destruct (xorb _ _); simpl; [apply IH | reflexivity].
  - destruct (negb _); simpl; [apply IH | reflexivity].
Qed.

Lemma first_some_In {A B : Type} (f : A -> option B) (l : list A) (b : B) :
  first_some f l = Some b -> exists a, In a l /\ f a = Some b.
Proof.
  induction l as [|a l IH]; simpl; [discriminate|].
  destruct (f a) as [b'|] eqn:E.
  - intros H; inversion H; subst. exists a. auto.
  - intros H. destruct (IH H) as (a' & Ha & Hf). exists a'. auto.
Qed.

(** A match ends inside the text it started in. *)
Lemma match_end_suffix (p : pattern) (prev pv : option ascii) (rest r : str) :
  match_end p prev rest = Some (pv, r) -> exists m, rest = m ++ r.
Proof.
  revert prev rest; induction p as [|i p IH]; intros prev rest.
  - simpl. intros H; inversion H; subst. exists []. reflexivity.
  - destruct i; cbn [match_end].
    + destruct (negb _); [apply IH | discriminate].
    + destruct (eat s prev rest) as [[pv' r']|] eqn:E; [|discriminate].
      apply eat_spec in E. destruct E as (occ & -> & _ & _).
      intros H. destruct (IH _ _ H) as (m & ->).
      exists (occ ++ m). apply app_assoc.
    + destruct (first_some _ alts) as [e|] eqn:E; [|apply IH].
      intros H; inversion H; subst.
      apply first_some_In in E. destruct E as (a & _ & E).
      destruct (eat a prev rest) as [[pv' r']|] eqn:E'; [|discriminate].
      apply eat_spec in E'. destruct E' as (occ & -> & _ & _).
      destruct (IH _ _ E) as (m & ->).
      exists (occ ++ m). apply app_assoc.
    + destruct (xorb _ _); [apply IH | discriminate].
    + destruct (negb _); [apply IH | discriminate].
Qed.

Lemma firstn_matched (m r : str) :
  firstn (length (m ++ r) - length r) (m ++ r) = m.
Proof.
  rewrite length_app. replace (length m + length r - length r) with (length m) by lia.
  rewrite firstn_app, Nat.sub_diag, firstn_all. simpl. apply app_nil_r.
Qed.

(** Where the pattern matches nowhere the text stays as it is. *)
Lemma sub_from_no_match (fuel : nat) (p : pattern) (prev : option ascii)
  (rest : str) :
  search_from p prev rest = false -> sub_from fuel p prev rest = rest.
Proof.
  revert fuel prev; induction rest as [|c rest IH]; intros [|fuel] prev H;
    try reflexivity; simpl in H; apply orb_false_iff in H; destruct H as [H1 H2];
    rewrite match_here_end in H1; cbn [sub_from];
    destruct (match_end p prev _); try discriminate; try reflexivity.
  rewrite IH by assumption. reflexivity.
Qed.

Lemma sub_from_length (fuel : nat) (p : pattern) (prev : option ascii)
  (rest : str) :
  length rest <= length (sub_from fuel p prev rest).
Proof.
  revert prev rest; induction fuel as [|fuel IH]; intros prev rest; [simpl; lia|].
  cbn [sub_from]. destruct (match_end p prev rest) as [[pv r]|] eqn:E.
  - destruct (match_end_suffix _ _ _ _ _ E) as (m & ->).
    rewrite firstn_matched. destruct m as [|x m].
    + unfold badge. rewrite !length_app. simpl app.
      destruct r as [|c r]; simpl; [lia|]. specialize (IH (Some c) r). lia.
    + unfold badge. rewrite !length_app. specialize (IH pv r). simpl in *. lia.
  - destruct rest as [|c rest]; simpl; [lia|]. specialize (IH (Some c) rest). lia.
Qed.

(** Where the pattern matches somewhere the text grows. *)
Lemma sub_from_match (fuel : nat) (p : pattern) (prev : option ascii)
  (rest : str) :
  length rest < fuel -> search_from p prev rest = true ->
  length rest < length (sub_from fuel p prev rest).
Proof.
  revert prev rest; induction fuel as [|fuel IH]; intros prev rest Hf H; [lia|].
  cbn [sub_from]. destruct (match_end p prev rest) as [[pv r]|] eqn:E.
  - destruct (match_end_suffix _ _ _ _ _ E) as (m & ->).
    rewrite firstn_matched. destruct m as [|x m].
    + unfold badge. rewrite !length_app. simpl app.
      destruct r as [|c r]; simpl; [lia|].
      pose proof (sub_from_length fuel p (Some c) r). lia.
    + unfold badge. rewrite !length_app.
      pose proof (sub_from_length fuel p pv r). simpl in *. lia.
  - destruct rest as [|c rest]; simpl in H; rewrite match_here_end, E in H;
      simpl in H; [discriminate|].
    simpl in Hf. specialize (IH (Some c) rest ltac:(lia) H). simpl. lia.
Qed.

Lemma re_sub_changes (p : pattern) (text : str) :
  re_sub p text <> text <-> re_search p text = true.
Proof.
  unfold re_sub, re_search. split.
  - intros H. destruct (search_from p None text) eqn:E; [reflexivity|].
    exfalso. apply H. apply sub_from_no_match. exact E.
  - intros H E.
    pose proof (sub_from_match (S (length text)) p None text ltac:(lia) H) as L.
    rewrite E in L. lia.
Qed.

Lemma highlight_golf (text : str) :
  highlight_keywords_in_text text [py "golf"]
  = re_sub (keyword_pattern (py "golf")) text.
Proof.
  destruct text as [|c text]; [reflexivity|].
  unfold highlight_keywords_in_text. cbn [truthy negb orb].
  change (remove_stop_words (words_to_highlight [py "golf"]))
    with [py "golf"; py "golf"].
  reflexivity.
Qed.

(** ** Matcher *)

Lemma is_word_lower_char (c : ascii) :
  is_word_char (lower_char c) = is_word_char c.
Proof.
  destruct c as [[] [] [] [] [] [] [] []]; reflexivity.
Qed.

Lemma is_word_last_lower (p : option ascii) (s : str) :
  s <> [] ->
  is_word_opt (last_char p s) = is_word_opt (last_char None (lower s)).
Proof.
  destruct s as [|c s] using rev_ind; [congruence|]. intros _.
  rewrite lower_app, !last_char_app. simpl. apply eq_sym, is_word_lower_char.
Qed.

Lemma lower_length (s : str) : length (lower s) = length s.
Proof. apply length_map. Qed.

Lemma add_keyword_length (k w : str) : In w (add_keyword k) -> 2 <= length w.
Proof.
  unfold add_keyword. destruct (Nat.leb_spec 2 (length (strip k))); [|intros []].
  intros [<- | H0].
  - rewrite lower_length. assumption.
  - apply filter_In in H0. destruct H0 as [_ H0].
    apply Nat.leb_le in H0. assumption.
Qed.

Lemma words_to_highlight_length (keywords : list str) (w : str) :
  In w (words_to_highlight keywords) -> 2 <= length w.
Proof.
  unfold words_to_highlight. rewrite in_flat_map.
  intros (k & _ & H). eapply add_keyword_length; eassumption.
Qed.

Lemma regular_match_spec (k : str) (keywords : list str) (row : Post) :
  regular_match (k :: keywords) row = true <->
  free_text_matches (k :: keywords) (full_text row).
Proof.
  unfold regular_match, free_text_matches. cbn [truthy].
  rewrite any_word_matches_spec. unfold remove_stop_words. split.
  - intros (w & Hw & H). apply filter_In in Hw. destruct Hw as [Hw Hf].
    apply andb_true_iff in Hf. destruct Hf as [Hf _].
    apply negb_true_iff in Hf. exists w. auto.
  - intros (w & Hw & Hs & H). exists w. split; [|assumption].
    apply filter_In. split; [assumption|]. rewrite Hs. cbn [negb andb].
    apply Nat.leb_le. eapply words_to_highlight_length; eassumption.
Qed.

Lemma age_match_spec (a : str) (ages : list str) (row : Post) :
  age_match (a :: ages) row = true <->
  age_words_match (a :: ages) (title_text row).
Proof.
  unfold age_match, age_words_match. cbn [truthy].
  apply any_word_matches_spec.
Qed.

(** On a word that ends in a word character the boundary after the match
    is the absence of a word character. *)
Lemma suffixed_token_word (w text : str) :
  w <> [] -> is_word_opt (last_char None (lower w)) = true ->
  suffixed_token w text <-> suffixed_word w text.
Proof.
  intros Hne Hw. unfold suffixed_token, suffixed_word, boundary_between, no_word_after.
  assert (Hlast : forall pre occ suf, lower occ = lower w ->
            In (lower suf) ([] :: suffixes) ->
            is_word_opt (last_char None (pre ++ occ ++ suf)) = true).
  { intros pre occ suf L Hs.
    assert (Ho : occ <> []).
    { intros ->. destruct w; [congruence | discriminate]. }
    rewrite app_assoc, last_char_app.
    destruct Hs as [Hs | Hs].
    - destruct suf; [|discriminate]. simpl.
      rewrite last_char_app, (is_word_last_lower _ _ Ho), L. exact Hw.
    - assert (Hsuf : suf <> []).
      { intros ->. simpl in Hs. unfold suffixes in Hs. simpl in Hs.
        repeat (destruct Hs as [Hs | Hs]; [discriminate|]). destruct Hs. }
      rewrite (is_word_last_lower _ _ Hsuf).
      unfold suffixes in Hs. simpl in Hs.
      repeat (destruct Hs as [<- | Hs]; [reflexivity|]). destruct Hs. }
  split; intros (pre & occ & suf & post & E & L & Hs & Hp & Hb);
    exists pre, occ, suf, post; repeat split; auto;
    rewrite (Hlast pre occ suf L Hs) in *; simpl in *.
  - apply negb_true_iff in Hb. exact Hb.
  - rewrite Hb. reflexivity.
Qed.

(** C1 (as amended).  When free-text keywords and age keywords are both
    supplied, a post is accepted exactly when a free-text word (stop words
    dropped) occurs in title+body and an age word occurs in the title.  With
    keywords ["travel"] and the age range 25..25 the title "25F travel
    buddy" is rejected, because the pattern of the two-character word "25"
    wants no word character after it and "F" is one; "25 F travel buddy" is
    accepted; "travel buddy" and "25F seeking friend" are rejected. *)
Theorem has_keyword_match_both (k a : str) (keywords ages : list str) (row : Post) :
  (has_keyword_match (k :: keywords) (a :: ages) row = true <->
   free_text_matches (k :: keywords) (full_text row)
   /\ age_words_match (a :: ages) (title_text row))
  /\ age_keywords_of_range 25 25 = [py "25"]
  /\ has_keyword_match [py "travel"] (age_keywords_of_range 25 25)
       (post_titled "25F travel buddy") = false
  /\ has_keyword_match [py "travel"] (age_keywords_of_range 25 25)
       (post_titled "25 F travel buddy") = true
  /\ has_keyword_match [py "travel"] (age_keywords_of_range 25 25)
       (post_titled "travel buddy") = false
  /\ has_keyword_match [py "travel"] (age_keywords_of_range 25 25)
       (post_titled "25F seeking friend") = false.
Proof.
  split; [|repeat split; vm_compute; reflexivity].
  unfold has_keyword_match. cbn [truthy andb].
  rewrite andb_true_iff, regular_match_spec, age_match_spec. tauto.
Qed.

(** C1, the claim's example: the post titled "25F travel buddy" with an
    empty body carries the keyword "travel" in its text and is not
    accepted. *)
Lemma age_25F_rejected :
  free_text_matches [py "travel"] (full_text (post_titled "25F travel buddy"))
  /\ has_keyword_match [py "travel"] (age_keywords_of_range 25 25)
       (post_titled "25F travel buddy") = false.
Proof.
  split; [|vm_compute; reflexivity].
  apply (regular_match_spec (py "travel") [] (post_titled "25F travel buddy")).
  vm_compute; reflexivity.
Qed.

(** C2.  The pattern built for the keyword "golf" finds a match in a text
    exactly when the text holds "golf", in any letter case, not preceded by
    a word character, followed by at most one of ing, ed, er, s, ly, and
    then by no word character; the predicate of the filter with the single
    keyword "golf" accepts a post exactly when its title+body is such a
    text, and the highlighter with that keyword changes exactly such texts.
    It matches golfing, golfed, golfer, golfs and golfly, and neither
    golfcart nor mongolf. *)
Theorem golf_matcher_boundary :
  (forall text, keyword_search (py "golf") text = true <->
                suffixed_word (py "golf") text)
  /\ (forall row, has_keyword_match [py "golf"] [] row = true <->
                  suffixed_word (py "golf") (full_text row))
  /\ keyword_pattern (py "golf")
     = [NotAfterWord; Lit (py "golf"); OptAlt (map py ["ing"; "ed"; "er"; "s"; "ly"]%string);
        WordBoundary]
  /\ map (fun t => keyword_search (py "golf") (py t))
         ["golfing"; "golfed"; "golfer"; "golfs"; "golfly"]%string
     = [true; true; true; true; true]
  /\ keyword_search (py "golf") (py "golfcart") = false
  /\ keyword_search (py "golf") (py "mongolf") = false
  /\ (forall text, highlight_keywords_in_text text [py "golf"] <> text <->
                   suffixed_word (py "golf") text)
  /\ highlight_keywords_in_text (py "Mongolf GOLFING golfcart golf") [py "golf"]
     = py "Mongolf :violet-badge[GOLFING] golfcart :violet-badge[golf]".
Proof.
  assert (G : forall text, keyword_search (py "golf") text = true <->
                           suffixed_word (py "golf") text).
  { intros text. rewrite keyword_search_long by (simpl; lia).
    apply suffixed_token_word; [discriminate | reflexivity]. }
  split; [exact G|]. split; [|repeat split; try (vm_compute; reflexivity)].
  - intros row. rewrite <- G.
    unfold has_keyword_match. cbn [truthy andb negb].
    unfold regular_match. cbn [truthy].
    change (remove_stop_words (words_to_highlight [py "golf"]))
      with [py "golf"; py "golf"].
    unfold any_word_matches. simpl existsb.
    rewrite orb_false_r, orb_diag. reflexivity.
  - rewrite highlight_golf. intros H. apply G. apply re_sub_changes. exact H.
  - rewrite highlight_golf. intros H. apply re_sub_changes. apply G. exact H.
Qed.

(** C3 (as amended).  "at" is a stop word: as a free-text keyword it is
    dropped from the word list, the filter accepts no post at all and the
    highlighter leaves every text as it is.  The
    pattern built for the two-character word "at" (the one the age path,
    which drops no stop word, applies) finds a match exactly when the text
    holds "at", in any letter case, with no word character on either side;
    it matches "at" and neither "cat" nor "ate". *)
Theorem at_keyword_stop_word :
  (forall row, has_keyword_match [py "at"] [] row = false)
  /\ (forall text, keyword_search (py "at") text = true <->
                   standalone_token (py "at") text)
  /\ (forall row, has_keyword_match [] [py "at"] row = true <->
                  standalone_token (py "at") (title_text row))
  /\ (forall text, highlight_keywords_in_text text [py "at"] = text)
  /\ keyword_search (py "at") (py "at") = true
  /\ keyword_search (py "at") (py "cat") = false
  /\ keyword_search (py "at") (py "ate") = false.
Proof.
  assert (G : forall text, keyword_search (py "at") text = true <->
                           standalone_token (py "at") text).
  { intros text. apply keyword_search_short. simpl; lia. }
  split; [intros row; reflexivity|]. split; [exact G|].
  split; [|split; [|repeat split; vm_compute; reflexivity]].
  - intros row. rewrite <- G.
    unfold has_keyword_match. cbn [truthy andb negb].
    unfold age_match. cbn [truthy].
    change (words_to_highlight [py "at"]) with [py "at"; py "at"].
    unfold any_word_matches. simpl existsb.
    rewrite orb_false_r, orb_diag. reflexivity.
  - intros [|c text]; reflexivity.
Qed.

(** C3, the claim's predicate at the text "at": the token stands alone in
    the text of the post and the filter rejects the post. *)
Lemma at_token_not_accepted :
  standalone_token (py "at") (full_text (post_titled "at"))
  /\ has_keyword_match [py "at"] [] (post_titled "at") = false.
Proof.
  split; [|reflexivity].
  exists [], (py "at"), (py " "). repeat split.
Qed.

(** ** The stable sort *)

Section StableSortFacts.
Context {A : Type}.
Variable le : A -> A -> bool.
Hypothesis le_total : forall x y, le x y = true \/ le y x = true.
Hypothesis le_trans : forall x y z, le x y = true -> le y z = true -> le x z = true.

Let ordered (l : list A) : Prop := StronglySorted (fun x y => le x y = true) l.

Lemma insert_row_perm (x : A) (l : list A) : Permutation (insert_row le x l) (x :: l).
Proof.
  induction l as [|y l IH]; simpl; [reflexivity|].
  destruct (le x y); [reflexivity|].
  rewrite IH. apply perm_swap.
Qed.

Lemma stable_sort_perm (l : list A) : Permutation (stable_sort le l) l.
Proof.
  induction l as [|x l IH]; simpl; [reflexivity|].
  rewrite insert_row_perm. constructor. exact IH.
Qed.

Lemma insert_row_ordered (x : A) (l : list A) :
  ordered l -> ordered (insert_row le x l).
Proof.
  unfold ordered. induction l as [|y l IH]; intros Hl; simpl.
  - constructor; constructor.
  - inversion Hl as [|? ? Hl' Hy]; subst.
    destruct (le x y) eqn:E.
    + constructor; [assumption|]. constructor; [assumption|].
      eapply Forall_impl; [|exact Hy]. intros z Hz. eapply le_trans; eassumption.
    + constructor; [apply IH; assumption|].
      assert (Hyx : le y x = true) by (destruct (le_total x y); congruence).
      eapply Permutation_Forall; [symmetry; apply insert_row_perm|].
      constructor; assumption.
Qed.

Lemma stable_sort_ordered (l : list A) : ordered (stable_sort le l).
Proof.
  induction l as [|x l IH]; simpl; [constructor|].
  apply insert_row_ordered. exact IH.
Qed.

(** Taking the rows of a class out of a sorted frame and sorting the rows
    of the class are the same thing. *)
Lemma filter_insert_row (f : A -> bool) (x : A) (l : list A) :
  ordered l ->
  filter f (insert_row le x l)
  = if f x then insert_row le x (filter f l) else filter f l.
Proof.
  unfold ordered. induction l as [|y l IH]; intros Hl; simpl.
  - destruct (f x); reflexivity.
  - inversion Hl as [|? ? Hl' Hy]; subst.
    destruct (le x y) eqn:E; simpl.
    + destruct (f x) eqn:Fx; [|reflexivity].
      destruct (f y) eqn:Fy; simpl; [rewrite E; reflexivity|].
      destruct (filter f l) as [|z r] eqn:Ef; [reflexivity|]. simpl.
      assert (Hz : In z l).
      { assert (Hin : In z (filter f l)) by (rewrite Ef; left; reflexivity).
        apply filter_In in Hin. tauto. }
      rewrite Forall_forall in Hy.
      rewrite (le_trans _ _ _ E (Hy z Hz)). reflexivity.
    + rewrite (IH Hl'). destruct (f y) eqn:Fy; destruct (f x) eqn:Fx; simpl;
        try rewrite E; reflexivity.
Qed.

Lemma filter_stable_sort (f : A -> bool) (l : list A) :
  filter f (stable_sort le l) = stable_sort le (filter f l).
Proof.
  induction l as [|x l IH]; [reflexivity|]. simpl.
  rewrite filter_insert_row by apply stable_sort_ordered.
  rewrite IH. destruct (f x); reflexivity.
Qed.

End StableSortFacts.

(** ** Deduplicator *)

Lemma more_recent_first_total (p q : Post) :
  more_recent_first p q = true \/ more_recent_first q p = true.
Proof. unfold more_recent_first. apply str_leb_total. Qed.

Lemma more_recent_first_trans (p q r : Post) :
  more_recent_first p q = true -> more_recent_first q r = true ->
  more_recent_first p r = true.
Proof.
  unfold more_recent_first. intros H1 H2. eapply str_leb_trans; eassumption.
Qed.

Lemma filter_none {A : Type} (f : A -> bool) (l : list A) :
  (forall x, In x l -> f x = false) -> filter f l = [].
Proof.
  induction l as [|x l IH]; intros H; simpl; [reflexivity|].
  rewrite (H x (or_introl eq_refl)). apply IH. intros y Hy. apply H. right; exact Hy.
Qed.

Lemma filter_all {A : Type} (f : A -> bool) (l : list A) :
  (forall x, In x l -> f x = true) -> filter f l = l.
Proof.
  induction l as [|x l IH]; intros H; simpl; [reflexivity|].
  rewrite (H x (or_introl eq_refl)). f_equal. apply IH. intros y Hy. apply H. right; exact Hy.
Qed.

Lemma filter_filter_sub {A : Type} (f g : A -> bool) (l : list A) :
  (forall x, f x = true -> g x = true) -> filter f (filter g l) = filter f l.
Proof.
  intros H. induction l as [|x l IH]; simpl; [reflexivity|].
  destruct (g x) eqn:G; simpl; rewrite IH; [reflexivity|].
  destruct (f x) eqn:F; [|reflexivity]. rewrite (H x F) in G. discriminate.
Qed.

Lemma drop_duplicates_from_In (seen : list str) (df : list Post) (p : Post) :
  In p (drop_duplicates_from seen df) ->
  In p df /\ str_mem (author p) seen = false.
Proof.
  revert seen; induction df as [|x df IH]; intros seen; simpl; [intros []|].
  destruct (str_mem (author x) seen) eqn:E.
  - intros H. apply IH in H. tauto.
  - intros [<- | H]; [auto|]. apply IH in H. destruct H as [H1 H2].
    split; [auto|]. simpl in H2. apply orb_false_iff in H2. tauto.
Qed.

Lemma drop_duplicates_from_NoDup (seen : list str) (df : list Post) :
  NoDup (map author (drop_duplicates_from seen df)).
Proof.
  revert seen; induction df as [|x df IH]; intros seen; simpl; [constructor|].
  destruct (str_mem (author x) seen); [apply IH|].
  simpl. constructor; [|apply IH].
  intros H. apply in_map_iff in H. destruct H as (q & Hq & H).
  apply drop_duplicates_from_In in H. destruct H as [_ H].
  simpl in H. rewrite Hq, str_eqb_refl in H. discriminate.
Qed.

(** A frame with one row per author passes unchanged. *)
Lemma drop_duplicates_from_fixed (seen : list str) (df : list Post) :
  NoDup (map author df) ->
  (forall p, In p df -> str_mem (author p) seen = false) ->
  drop_duplicates_from seen df = df.
Proof.
  revert seen; induction df as [|x df IH]; intros seen Hn Hs; simpl; [reflexivity|].
  rewrite (Hs x (or_introl eq_refl)). f_equal.
  inversion Hn as [|? ? Hx Hn']; subst. apply IH; [assumption|].
  intros p Hp. simpl. rewrite (Hs p (or_intror Hp)), orb_false_r.
  apply str_eqb_neq. intros E. apply Hx. rewrite <- E. apply in_map. exact Hp.
Qed.

(** Of each author the first row is kept and no other. *)
Lemma drop_duplicates_from_author (a : str) (seen : list str) (df : list Post) :
  filter (fun q => str_eqb (author q) a) (drop_duplicates_from seen df)
  = if str_mem a seen then []
    else firstn 1 (filter (fun q => str_eqb (author q) a) df).
Proof.
  revert seen; induction df as [|x df IH]; intros seen; simpl.
  - destruct (str_mem a seen); reflexivity.
  - destruct (str_mem (author x) seen) eqn:E.
    + rewrite IH. destruct (str_mem a seen) eqn:Ea; [reflexivity|].
      destruct (str_eqb (author x) a) eqn:Ex; [|reflexivity].
      apply str_eqb_eq in Ex. congruence.
    + simpl. rewrite IH. simpl.
      destruct (str_eqb (author x) a) eqn:Ex.
      * apply str_eqb_eq in Ex. subst a. rewrite E, str_eqb_refl. reflexivity.
      * assert (Ea : str_eqb a (author x) = false).
        { apply str_eqb_neq. apply str_eqb_neq in Ex. congruence. }
        rewrite Ea. reflexivity.
Qed.

Lemma deduplicate_unfold (df : list Post) :
  filter_deleted_and_deduplicate_users df
  = sort_values_created_time_desc
      (drop_duplicates_author
         (filter (fun p => negb (mask_deleted p)) (sort_values_created_time_desc df))
       ++ filter mask_deleted (sort_values_created_time_desc df)).
Proof. destruct df; reflexivity. Qed.

Lemma identifiable_kept (df : list Post) (p : Post) :
  In p (drop_duplicates_author (filter (fun p => negb (mask_deleted p)) df)) ->
  In p df /\ mask_deleted p = false.
Proof.
  intros H. apply drop_duplicates_from_In in H. destruct H as [H _].
  apply filter_In in H. destruct H as [H1 H2].
  apply negb_true_iff in H2. auto.
Qed.

Local Abbreviation sorted := (stable_sort more_recent_first).
Local Abbreviation sort_filter :=
  (filter_stable_sort more_recent_first more_recent_first_total
     more_recent_first_trans).

Lemma partition_deleted_perm (df : list Post) :
  Permutation (filter (fun p => negb (mask_deleted p)) df ++ filter mask_deleted df) df.
Proof.
  induction df as [|p df IH]; simpl; [reflexivity|].
  destruct (mask_deleted p); simpl.
  - rewrite <- Permutation_middle. constructor. exact IH.
  - constructor. exact IH.
Qed.

(** ** Deduplicator, whatever [sort_values] does with rows of one second *)

Lemma str_leb_refl (a : str) : str_leb a a = true.
Proof. destruct (str_leb_total a a); assumption. Qed.

Lemma str_leb_antisym (a b : str) :
  str_leb a b = true -> str_leb b a = true -> a = b.
Proof.
  revert b; induction a as [|x a IH]; intros [|y b]; simpl;
    try discriminate; try reflexivity.
  destruct (N.ltb_spec (code x) (code y)) as [Hxy | Hxy].
  - intros _. destruct (N.ltb_spec (code y) (code x)); [lia|].
    destruct (N.eqb_spec (code y) (code x)); [lia | discriminate].
  - destruct (N.eqb_spec (code x) (code y)) as [E | E]; [|discriminate].
    rewrite E, N.ltb_irrefl, N.eqb_refl. intros H1 H2.
    f_equal; [|apply IH; assumption].
    unfold code in E. rewrite <- (ascii_N_embedding x), <- (ascii_N_embedding y).
    f_equal. exact E.
Qed.

Lemma filter_Permutation {A : Type} (f : A -> bool) (l1 l2 : list A) :
  Permutation l1 l2 -> Permutation (filter f l1) (filter f l2).
Proof.
  induction 1 as [|x l1 l2 _ IH|x y l|l1 l2 l3 _ IH1 _ IH2]; simpl.
  - constructor.
  - destruct (f x); [constructor|]; exact IH.
  - destruct (f x), (f y); try reflexivity. apply perm_swap.
  - etransitivity; eassumption.
Qed.

Lemma filter_sorted_by_recency (f : Post -> bool) (df : list Post) :
  sorted_by_recency df -> sorted_by_recency (filter f df).
Proof.
  unfold sorted_by_recency. induction 1 as [|p df _ IH Hp]; simpl; [constructor|].
  destruct (f p); [|exact IH]. constructor; [exact IH|].
  rewrite Forall_forall in *. intros q Hq. apply Hp.
  apply filter_In in Hq. tauto.
Qed.

(** The first row of a frame sorted most recent first is a most recent
    one. *)
Lemma sorted_by_recency_head (p : Post) (df : list Post) :
  sorted_by_recency (p :: df) ->
  forall q, In q (p :: df) -> str_leb (created_time q) (created_time p) = true.
Proof.
  intros H q [<- | Hq]; [apply str_leb_refl|].
  inversion H as [|? ? _ Hp]; subst. rewrite Forall_forall in Hp. apply Hp, Hq.
Qed.

(** Two frames with the same rows, both sorted most recent first, are the
    same frame when no two rows are of the same second. *)
Lemma sorted_by_recency_unique (l1 l2 : list Post) :
  Permutation l1 l2 -> NoDup (map created_time l1) ->
  sorted_by_recency l1 -> sorted_by_recency l2 -> l1 = l2.
Proof.
  revert l2; induction l1 as [|x l1 IH]; intros l2 Hp Hn H1 H2.
  - apply Permutation_nil in Hp. congruence.
  - destruct l2 as [|y l2].
    { symmetry in Hp. apply Permutation_nil in Hp. discriminate. }
    assert (Hxy : x = y).
    { assert (Hx : In x (y :: l2)) by (eapply Permutation_in; [exact Hp | left; reflexivity]).
      assert (Hy : In y (x :: l1)).
      { eapply Permutation_in; [symmetry; exact Hp | left; reflexivity]. }
      pose proof (sorted_by_recency_head _ _ H2 x Hx) as L1.
      pose proof (sorted_by_recency_head _ _ H1 y Hy) as L2.
      pose proof (str_leb_antisym _ _ L1 L2) as E.
      destruct Hy as [Hy | Hy]; [exact Hy|].
      exfalso. simpl in Hn. inversion Hn as [|? ? Hx' _]; subst.
      apply Hx'. rewrite E. apply in_map. exact Hy. }
    subst y. f_equal. apply IH.
    + eapply Permutation_cons_inv. exact Hp.
    + simpl in Hn. inversion Hn; assumption.
    + inversion H1; assumption.
    + inversion H2; assumption.
Qed.

(** The sort that keeps rows of one second in their incoming order is one
    of the sorts [sort_values] may be. *)
Lemma sort_values_created_time_desc_sorts :
  sorts_by_recency sort_values_created_time_desc.
Proof.
  intros df. split.
  - apply stable_sort_perm.
  - exact (stable_sort_ordered more_recent_first more_recent_first_total
             more_recent_first_trans df).
Qed.

Lemma deduplicate_with_stable (df : list Post) :
  filter_deleted_and_deduplicate_users_with sort_values_created_time_desc df
  = filter_deleted_and_deduplicate_users df.
Proof. reflexivity. Qed.

Section AnySort.
Variable sort_values : list Post -> list Post.
Hypothesis sort_values_sorts : sorts_by_recency sort_values.

Local Abbreviation deduplicate :=
  (filter_deleted_and_deduplicate_users_with sort_values).
Local Abbreviation identifiable := (filter (fun p => negb (mask_deleted p))).

Lemma sort_values_perm (df : list Post) : Permutation (sort_values df) df.
Proof. apply sort_values_sorts. Qed.

Lemma sort_values_sorted (df : list Post) : sorted_by_recency (sort_values df).
Proof. apply sort_values_sorts. Qed.

Lemma deduplicate_with_unfold (df : list Post) :
  deduplicate df
  = sort_values (drop_duplicates_author (identifiable (sort_values df))
                 ++ filter mask_deleted (sort_values df)).
Proof.
  destruct df as [|p df]; [|reflexivity]. simpl.
  assert (E : sort_values [] = []).
  { apply Permutation_nil. symmetry. apply sort_values_perm. }
  rewrite E. simpl. rewrite E. reflexivity.
Qed.

(** The rows kept: the first row of each author in the sorted frame, and
    the rows of "[deleted]". *)
Lemma deduplicate_with_perm (df : list Post) :
  Permutation (deduplicate df)
    (drop_duplicates_author (identifiable (sort_values df))
     ++ filter mask_deleted (sort_values df)).
Proof. rewrite deduplicate_with_unfold. apply sort_values_perm. Qed.

Lemma deduplicate_with_identifiable (df : list Post) :
  Permutation (identifiable (deduplicate df))
    (drop_duplicates_author (identifiable (sort_values df))).
Proof.
  etransitivity; [apply filter_Permutation, deduplicate_with_perm|].
  rewrite filter_app.
  rewrite (filter_all _ (drop_duplicates_author _)).
  2:{ intros x Hx. apply identifiable_kept in Hx. apply negb_true_iff. tauto. }
  rewrite (filter_none _ (filter mask_deleted _)).
  2:{ intros x Hx. apply filter_In in Hx. apply negb_false_iff. tauto. }
  rewrite app_nil_r. reflexivity.
Qed.

Lemma deduplicate_with_deleted (df : list Post) :
  Permutation (filter mask_deleted (deduplicate df)) (filter mask_deleted df).
Proof.
  etransitivity; [apply filter_Permutation, deduplicate_with_perm|].
  rewrite filter_app.
  rewrite (filter_none _ (drop_duplicates_author _)).
  2:{ intros x Hx. apply identifiable_kept in Hx. tauto. }
  rewrite filter_filter_sub by auto. simpl.
  apply filter_Permutation, sort_values_perm.
Qed.

(** Of an author other than "[deleted]" the row kept is the first of the
    author's rows in the sorted frame. *)
Lemma deduplicate_with_author (a : str) (df : list Post) :
  a <> deleted_author ->
  Permutation (filter (fun q => str_eqb (author q) a) (deduplicate df))
    (firstn 1 (filter (fun q => str_eqb (author q) a) (sort_values df))).
Proof.
  intros Ha.
  etransitivity; [apply filter_Permutation, deduplicate_with_perm|].
  rewrite filter_app.
  rewrite (filter_none _ (filter mask_deleted _)).
  2:{ intros x Hx. apply filter_In in Hx. destruct Hx as [_ Hx].
      unfold mask_deleted in Hx. apply str_eqb_eq in Hx.
      apply str_eqb_neq. congruence. }
  rewrite app_nil_r. unfold drop_duplicates_author.
  rewrite drop_duplicates_from_author. cbn [str_mem existsb].
  rewrite filter_filter_sub; [reflexivity|].
  intros x Hx. apply str_eqb_eq in Hx. apply negb_true_iff.
  unfold mask_deleted. apply str_eqb_neq. congruence.
Qed.

(** A frame in which no author other than "[deleted]" has two rows keeps
    all its rows. *)
Lemma deduplicate_with_keeps_all (df : list Post) :
  NoDup (map author (identifiable df)) -> Permutation (deduplicate df) df.
Proof.
  intros Hn. etransitivity; [apply deduplicate_with_perm|].
  etransitivity; [|apply partition_deleted_perm].
  apply Permutation_app.
  - unfold drop_duplicates_author. rewrite drop_duplicates_from_fixed.
    + apply filter_Permutation, sort_values_perm.
    + eapply Permutation_NoDup; [|exact Hn].
      apply Permutation_map, filter_Permutation. symmetry. apply sort_values_perm.
    + reflexivity.
  - apply filter_Permutation, sort_values_perm.
Qed.

Lemma deduplicate_with_one_per_author (df : list Post) :
  NoDup (map author (identifiable (deduplicate df))).
Proof.
  eapply Permutation_NoDup.
  - apply Permutation_map. symmetry. apply deduplicate_with_identifiable.
  - apply drop_duplicates_from_NoDup.
Qed.

End AnySort.

(** C4.  For every [sort_values] that returns the rows of its frame most
    recent first, whatever it does with rows of one second: the
    deduplicated frame is ordered most recent first; it holds posts of the
    input only; of every author other than "[deleted]" who has a post in the
    input it holds exactly one post, and no post of that author in the input
    is more recent; and it holds every post of "[deleted]", as often as the
    input does. *)
Theorem deduplicate_keeps_a_most_recent
  (sort_values : list Post -> list Post) (df : list Post) :
  sorts_by_recency sort_values ->
  sorted_by_recency (filter_deleted_and_deduplicate_users_with sort_values df)
  /\ (forall p,
        In p (filter_deleted_and_deduplicate_users_with sort_values df) ->
        In p df)
  /\ (forall a, a <> deleted_author ->
        (exists q, In q df /\ author q = a) ->
        exists p, a_most_recent_of a df p
          /\ filter (fun q => str_eqb (author q) a)
               (filter_deleted_and_deduplicate_users_with sort_values df) = [p])
  /\ Permutation
       (filter mask_deleted
          (filter_deleted_and_deduplicate_users_with sort_values df))
       (filter mask_deleted df).
Proof.
  intros Hsort.
  pose proof (sort_values_perm sort_values Hsort df) as Hperm.
  pose proof (sort_values_sorted sort_values Hsort df) as Hsorted.
  split; [|split; [|split]].
  - rewrite (deduplicate_with_unfold sort_values Hsort).
    apply (sort_values_sorted sort_values Hsort).
  - intros p Hp.
    apply (Permutation_in _ (deduplicate_with_perm sort_values Hsort df)) in Hp.
    apply (Permutation_in _ Hperm).
    apply in_app_or in Hp. destruct Hp as [Hp | Hp].
    + apply identifiable_kept in Hp. tauto.
    + apply filter_In in Hp. tauto.
  - intros a Ha (q0 & Hq0 & Hq0a).
    pose proof (deduplicate_with_author sort_values Hsort a df Ha) as Hp.
    pose proof (filter_sorted_by_recency (fun q => str_eqb (author q) a) _
                  Hsorted) as Hs.
    destruct (filter (fun q => str_eqb (author q) a) (sort_values df))
      as [|p r] eqn:E.
    { exfalso.
      assert (Hin : In q0 (filter (fun q => str_eqb (author q) a) (sort_values df))).
      { apply filter_In. split; [|apply str_eqb_eq; assumption].
        apply (Permutation_in _ (Permutation_sym Hperm)). exact Hq0. }
      rewrite E in Hin. destruct Hin. }
    exists p. split.
    + assert (Hin : In p (filter (fun q => str_eqb (author q) a) (sort_values df)))
        by (rewrite E; left; reflexivity).
      apply filter_In in Hin. destruct Hin as [Hin Hpa]. apply str_eqb_eq in Hpa.
      split; [|split; [exact Hpa|]].
      * apply (Permutation_in _ Hperm). exact Hin.
      * intros q Hq Hqa. apply (sorted_by_recency_head _ _ Hs).
        rewrite <- E. apply filter_In. split; [|apply str_eqb_eq; assumption].
        apply (Permutation_in _ (Permutation_sym Hperm)). exact Hq.
    + simpl in Hp. symmetry in Hp. apply Permutation_length_1_inv in Hp. exact Hp.
  - apply (deduplicate_with_deleted sort_values Hsort).
Qed.

(** C4, an instance: the sort that keeps rows of one second in their
    incoming order is a sort of the kind, and so the theorem holds of it on
    the twenty posts of one second. *)
Lemma deduplicate_keeps_a_most_recent_twenty :
  sorts_by_recency sort_values_created_time_desc
  /\ sorted_by_recency
    (filter_deleted_and_deduplicate_users_with sort_values_created_time_desc
       twenty_posts)
  /\ (forall p,
        In p (filter_deleted_and_deduplicate_users_with
                sort_values_created_time_desc twenty_posts) ->
        In p twenty_posts)
  /\ (forall a, a <> deleted_author ->
        (exists q, In q twenty_posts /\ author q = a) ->
        exists p, a_most_recent_of a twenty_posts p
          /\ filter (fun q => str_eqb (author q) a)
               (filter_deleted_and_deduplicate_users_with
                  sort_values_created_time_desc twenty_posts) = [p])
  /\ Permutation
       (filter mask_deleted
          (filter_deleted_and_deduplicate_users_with
             sort_values_created_time_desc twenty_posts))
       (filter mask_deleted twenty_posts).
Proof.
  split; [exact sort_values_created_time_desc_sorts|].
  exact (deduplicate_keeps_a_most_recent sort_values_created_time_desc
           twenty_posts sort_values_created_time_desc_sorts).
Defined.

(** C4 as the specification words it fails on the twenty posts of one
    second: of the two posts of "a", row 3 is the first in input order; the
    deduplicator, sorting as pandas does, keeps row 15, which is not. *)
Lemma deduplicate_tie_not_by_input_order :
  most_recent_of (py "a") twenty_posts (same_second_post 3 (py "a"))
  /\ filter (fun q => str_eqb (author q) (py "a"))
       (filter_deleted_and_deduplicate_users_with sort_values_quicksort
          twenty_posts)
     = [same_second_post 15 (py "a")]
  /\ ~ most_recent_of (py "a") twenty_posts (same_second_post 15 (py "a")).
Proof.
  split; [|split; [vm_compute; reflexivity|]].
  - exists (firstn 3 twenty_posts), (skipn 4 twenty_posts).
    split; [reflexivity|]. split; [reflexivity|]. split.
    + intros q Hq Ha. exfalso. revert Ha.
      vm_compute in Hq.
      repeat (destruct Hq as [<- | Hq]; [discriminate|]). destruct Hq.
    + intros q Hq _. vm_compute in Hq.
      repeat (destruct Hq as [<- | Hq]; [reflexivity|]). destruct Hq.
  - intros (before & rest & E & _ & Hb & _).
    assert (H3 : In (same_second_post 3 (py "a")) before).
    { vm_compute in E.
      do 3 (destruct before as [|? before]; [discriminate E|];
            simpl in E; injection E as <- E).
      destruct before as [|? before]; [discriminate E|].
      simpl in E; injection E as <- E. do 3 right. left. reflexivity. }
    specialize (Hb _ H3 eq_refl). vm_compute in Hb. discriminate.
Qed.

(** C5.  For every [sort_values] that returns the rows of its frame most
    recent first, whatever it does with rows of one second: deduplicating a
    deduplicated frame gives the same posts, each as often, again most
    recent first; and it gives the same frame, row by row, when no two of
    its posts are of the same second. *)
Theorem deduplicate_twice_same_posts
  (sort_values : list Post -> list Post) (df : list Post) :
  sorts_by_recency sort_values ->
  Permutation
    (filter_deleted_and_deduplicate_users_with sort_values
       (filter_deleted_and_deduplicate_users_with sort_values df))
    (filter_deleted_and_deduplicate_users_with sort_values df)
  /\ sorted_by_recency
       (filter_deleted_and_deduplicate_users_with sort_values
          (filter_deleted_and_deduplicate_users_with sort_values df))
  /\ (NoDup (map created_time
               (filter_deleted_and_deduplicate_users_with sort_values df)) ->
      filter_deleted_and_deduplicate_users_with sort_values
        (filter_deleted_and_deduplicate_users_with sort_values df)
      = filter_deleted_and_deduplicate_users_with sort_values df).
Proof.
  intros Hsort.
  assert (Hp : Permutation
                 (filter_deleted_and_deduplicate_users_with sort_values
                    (filter_deleted_and_deduplicate_users_with sort_values df))
                 (filter_deleted_and_deduplicate_users_with sort_values df)).
  { apply (deduplicate_with_keeps_all sort_values Hsort).
    apply (deduplicate_with_one_per_author sort_values Hsort). }
  assert (Hs : forall l,
             sorted_by_recency
               (filter_deleted_and_deduplicate_users_with sort_values l)).
  { intros l. rewrite (deduplicate_with_unfold sort_values Hsort).
    apply (sort_values_sorted sort_values Hsort). }
  split; [exact Hp|]. split; [apply Hs|].
  intros Hn. apply sorted_by_recency_unique; [exact Hp| |apply Hs|apply Hs].
  eapply Permutation_NoDup; [|exact Hn].
  apply Permutation_map. symmetry. exact Hp.
Qed.

(** C5, an instance: the sort that keeps rows of one second in their
    incoming order is a sort of the kind, and so the theorem holds of it on
    the twenty posts of one second. *)
Lemma deduplicate_twice_same_posts_twenty :
  sorts_by_recency sort_values_created_time_desc
  /\ Permutation
    (filter_deleted_and_deduplicate_users_with sort_values_created_time_desc
       (filter_deleted_and_deduplicate_users_with sort_values_created_time_desc
          twenty_posts))
    (filter_deleted_and_deduplicate_users_with sort_values_created_time_desc
       twenty_posts)
  /\ sorted_by_recency
       (filter_deleted_and_deduplicate_users_with sort_values_created_time_desc
          (filter_deleted_and_deduplicate_users_with
             sort_values_created_time_desc twenty_posts))
  /\ (NoDup (map created_time
               (filter_deleted_and_deduplicate_users_with
                  sort_values_created_time_desc twenty_posts)) ->
      filter_deleted_and_deduplicate_users_with sort_values_created_time_desc
        (filter_deleted_and_deduplicate_users_with
           sort_values_created_time_desc twenty_posts)
      = filter_deleted_and_deduplicate_users_with sort_values_created_time_desc
          twenty_posts).
Proof.
  split; [exact sort_values_created_time_desc_sorts|].
  exact (deduplicate_twice_same_posts sort_values_created_time_desc
           twenty_posts sort_values_created_time_desc_sorts).
Defined.

(** C5 as the specification words it fails on 50 posts of one second, each
    of an author of its own: the deduplicator, sorting as pandas does,
    returns them in one order and, applied to that frame, returns as many
    rows in another order. *)
Lemma deduplicate_twice_other_order :
  length
    (filter_deleted_and_deduplicate_users_with sort_values_quicksort
       (filter_deleted_and_deduplicate_users_with sort_values_quicksort
          (numbered_posts 50)))
  = length
      (filter_deleted_and_deduplicate_users_with sort_values_quicksort
         (numbered_posts 50))
  /\ filter_deleted_and_deduplicate_users_with sort_values_quicksort
       (filter_deleted_and_deduplicate_users_with sort_values_quicksort
          (numbered_posts 50))
     <> filter_deleted_and_deduplicate_users_with sort_values_quicksort
          (numbered_posts 50).
Proof.
  split; [vm_compute; reflexivity|].
  intros E. apply (f_equal (map post_id)) in E. vm_compute in E. discriminate.
Qed.

(** ** Ranker *)

Lemma key_leb_total (p q : Post) : key_leb p q = true \/ key_leb q p = true.
Proof. unfold key_leb, sort_key. apply str_leb_total. Qed.

Lemma key_leb_trans (p q r : Post) :
  key_leb p q = true -> key_leb q r = true -> key_leb p r = true.
Proof. unfold key_leb, sort_key. apply str_leb_trans. Qed.

(** The key column holds no missing value, so [na_position] moves no row. *)
Lemma sort_by_title_unfold (df : list Post) :
  sort_results df (py "Title Alphabetically") = stable_sort key_leb df.
Proof.
  destruct df as [|p df]; [reflexivity|].
  unfold sort_results.
  change (str_eqb (py "Title Alphabetically") (py "Date Posted")) with false.
  change (str_eqb (py "Title Alphabetically") (py "Title Alphabetically")) with true.
  cbv iota. unfold sort_na_last.
  rewrite (filter_all (fun x => negb (key_isna x))) by reflexivity.
  rewrite (filter_none key_isna) by reflexivity.
  apply app_nil_r.
Qed.

(** C6 (as amended).  Sorting by title rearranges the posts into ascending
    order of their keys, the key of a title being the title without white
    space around it, without one leading '[', in lower case.  The key of
    "[25F] hello" is "25f] hello" and the key of "Apple seeks friend" is
    "apple seeks friend"; since '2' comes before 'a', the sorted order of
    the two is ["[25F] hello", "Apple seeks friend"], whichever comes first
    in the input. *)
Theorem sort_by_title_bracket (df : list Post) :
  sorted_by_title (sort_results df (py "Title Alphabetically"))
  /\ Permutation (sort_results df (py "Title Alphabetically")) df
  /\ (forall t rest, strip t = "["%char :: rest -> rest <> [] ->
                     get_sort_key (Some t) = lower rest)
  /\ (forall t c rest, strip t = c :: rest -> c <> "["%char ->
                       get_sort_key (Some t) = lower (strip t))
  /\ get_sort_key (Some (py "[25F] hello")) = py "25f] hello"
  /\ get_sort_key (Some (py "Apple seeks friend")) = py "apple seeks friend"
  /\ map title (sort_results [post_titled "Apple seeks friend";
                              post_titled "[25F] hello"]
                             (py "Title Alphabetically"))
     = [Some (py "[25F] hello"); Some (py "Apple seeks friend")]
  /\ map title (sort_results [post_titled "[25F] hello";
                              post_titled "Apple seeks friend"]
                             (py "Title Alphabetically"))
     = [Some (py "[25F] hello"); Some (py "Apple seeks friend")].
Proof.
  rewrite sort_by_title_unfold.
  split; [|split; [apply stable_sort_perm|]].
  - exact (stable_sort_ordered key_leb key_leb_total key_leb_trans df).
  - split; [|split; [|repeat split; vm_compute; reflexivity]].
    + intros t rest E Hr. unfold get_sort_key. rewrite E.
      destruct rest; [congruence | reflexivity].
    + intros t c rest E Hc. unfold get_sort_key. rewrite E.
      apply Ascii.eqb_neq in Hc. rewrite Hc. reflexivity.
Qed.

(** C6, the claim's example: the sorted order of the two titles is
    "[25F] hello" first, "Apple seeks friend" second. *)
Lemma bracket_title_sorts_before_apple :
  map title (sort_results [post_titled "Apple seeks friend";
                           post_titled "[25F] hello"]
                          (py "Title Alphabetically"))
  = [Some (py "[25F] hello"); Some (py "Apple seeks friend")].
Proof. vm_compute; reflexivity. Qed.

Lemma strongly_sorted_before {A : Type} (R : A -> A -> Prop)
  (l1 : list A) (p : A) (l2 : list A) :
  StronglySorted R (l1 ++ p :: l2) -> forall q, In q l1 -> R q p.
Proof.
  induction l1 as [|x l1 IH]; intros H q; [intros []|].
  simpl in H. inversion H as [|? ? Hs Hx]; subst.
  intros [<- | Hq].
  - rewrite Forall_forall in Hx. apply Hx. apply in_elt.
  - apply IH; assumption.
Qed.

Lemma str_leb_nil (a : str) : str_leb a [] = true -> a = [].
Proof. destruct a; [reflexivity | discriminate]. Qed.

(** Whatever the frame, only posts with the empty key stand before a post
    without a title. *)
Lemma untitled_posts_first (df l1 l2 : list Post) (p : Post) :
  sort_results df (py "Title Alphabetically") = l1 ++ p :: l2 ->
  title p = None ->
  forall q, In q l1 -> get_sort_key (title q) = [].
Proof.
  intros E Hp q Hq. rewrite sort_by_title_unfold in E.
  pose proof (stable_sort_ordered key_leb key_leb_total key_leb_trans df) as Hs.
  rewrite E in Hs.
  pose proof (strongly_sorted_before _ _ _ _ Hs q Hq) as H.
  unfold key_leb, sort_key in H. rewrite Hp in H. simpl in H.
  apply str_leb_nil. exact H.
Qed.

(** C7.  A post without a title gets the empty key, which sorts before
    every other key: of the two posts, one titled "b" and one without a
    title, the one without a title comes first. *)
Theorem missing_title_sorts_first :
  sort_results [post_titled "b"; untitled_post] (py "Title Alphabetically")
  = [untitled_post; post_titled "b"]
  /\ get_sort_key None = []
  /\ ~ missing_titles_last
       (sort_results [post_titled "b"; untitled_post] (py "Title Alphabetically")).
Proof.
  split; [vm_compute; reflexivity|]. split; [reflexivity|].
  intros H.
  specialize (H [] untitled_post [post_titled "b"] eq_refl eq_refl
                (post_titled "b") (or_introl eq_refl)).
  discriminate H.
Qed.

(** ** Fetcher *)

Lemma requests_app (e1 e2 : list event) :
  requests (e1 ++ e2) = requests e1 ++ requests e2.
Proof. apply filter_app. Qed.

(** The requests already made stay in the trace. *)
Lemma fetch_loop_requests (total_posts : nat) (responses : list batch)
  (all_posts : list Post) (after : option str) (events : list event) :
  requests (snd (fetch_loop total_posts responses all_posts after events))
  = requests events
    ++ requests (snd (fetch_loop total_posts responses all_posts after [])).
Proof.
  revert all_posts after events.
  induction responses as [|[bp na] r IH]; intros acc a ev; cbn [fetch_loop].
  - destruct (length acc <? total_posts); cbn [snd].
    + apply requests_app.
    + symmetry; apply app_nil_r.
  - destruct (length acc <? total_posts); cbn [snd];
      [|symmetry; apply app_nil_r].
    destruct bp as [|x bp]; cbn [snd]; [apply requests_app|].
    rewrite IH. symmetry. rewrite IH. symmetry.
    destruct ((length (acc ++ x :: bp) <? total_posts) && cursor_truthy na);
      rewrite !requests_app, <- ?app_assoc; reflexivity.
Qed.

(** Whatever the cursor of a batch that brought posts, the next request is
    issued when the total is not reached; the cursor is only its [after]
    argument. *)
Lemma fetch_loop_next_request (total_posts : nat) (b : list Post)
  (c : option str) (rest : list batch) :
  b <> [] -> length b < total_posts ->
  exists limit tail,
    requests (snd (fetch_loop total_posts ((b, c) :: rest) [] None []))
    = Request (Nat.min total_posts 100) None :: Request limit c :: tail.
Proof.
  intros Hb Hlen. destruct b as [|p b]; [congruence|].
  assert (H0 : (length (@nil Post) <? total_posts) = true)
    by (apply Nat.ltb_lt; simpl; lia).
  assert (Hlt : (length ([] ++ p :: b) <? total_posts) = true)
    by (apply Nat.ltb_lt; exact Hlen).
  cbn [fetch_loop]. rewrite H0, Hlt. cbn [andb].
  rewrite fetch_loop_requests.
  replace (total_posts - length (@nil Post)) with total_posts by (simpl; lia).
  assert (Hhead : requests (if cursor_truthy c
                            then ([] ++ [Request (Nat.min total_posts 100) None]) ++ [Sleep]
                            else [] ++ [Request (Nat.min total_posts 100) None])
                  = [Request (Nat.min total_posts 100) None])
    by (destruct (cursor_truthy c); reflexivity).
  rewrite Hhead.
  destruct rest as [|[bp na] rest]; cbn [fetch_loop]; rewrite Hlt.
  - eexists _, _. reflexivity.
  - destruct bp as [|x bp].
    + eexists _, _. reflexivity.
    + rewrite fetch_loop_requests.
      destruct ((length (([] ++ p :: b) ++ x :: bp) <? total_posts)
                && cursor_truthy na); eexists _, _; reflexivity.
Qed.

(** C8.  The first batch brings two posts and no cursor, five posts are
    asked for: the loop goes on, asks the listing twice more from its start
    ([after] is [None] each time) and returns the two posts three times
    over, cut at five. *)
Theorem fetch_continues_after_null_cursor :
  fetch_penpals_posts (Some (py "token")) 5 [last_page; last_page; last_page]
  = ([sample_post "p1"; sample_post "p2"; sample_post "p1"; sample_post "p2";
      sample_post "p1"],
     [Request 5 None; Request 3 None; Request 1 None]).
Proof. vm_compute; reflexivity. Qed.

(** ** Paginator *)

Lemma ceil_div_last_page (total : Z) :
  (1 <= total)%Z ->
  (ceil_div total posts_per_page - 1 = (total - 1) / posts_per_page)%Z.
Proof.
  intros H. unfold ceil_div, posts_per_page.
  Z.to_euclidean_division_equations. lia.
Qed.

Lemma max_page_last_page (total : Z) :
  (1 <= total)%Z -> max_page total = (ceil_div total posts_per_page - 1)%Z.
Proof.
  intros H. rewrite ceil_div_last_page by assumption.
  unfold max_page, posts_per_page.
  Z.to_euclidean_division_equations. lia.
Qed.

Lemma clamp_page_min (total current_page : Z) :
  clamp_page total current_page = Z.min current_page (max_page total).
Proof.
  unfold clamp_page. destruct (Z.gtb_spec current_page (max_page total)); lia.
Qed.

Lemma iloc_window {A : Type} (l : list A) (a b : Z) :
  (0 <= a <= b)%Z -> (b <= Z.of_nat (length l))%Z ->
  iloc l a b = firstn (Z.to_nat (b - a)) (skipn (Z.to_nat a) l).
Proof.
  intros Ha Hb. unfold iloc, slice_bound.
  destruct (Z.ltb_spec a 0); [lia|]. destruct (Z.ltb_spec b 0); [lia|].
  rewrite !Z.min_l by lia. reflexivity.
Qed.

Lemma firstn_window {A : Type} (l : list A) (n m : nat) :
  Nat.min n (length l) = Nat.min m (length l) -> firstn n l = firstn m l.
Proof.
  revert n m; induction l as [|x l IH]; intros [|n] [|m]; simpl; intros H;
    try reflexivity; try discriminate.
  f_equal. apply IH. lia.
Qed.

Lemma page_posts_window (relevant_posts : list Post) (current_page : Z) :
  relevant_posts <> [] -> (0 <= current_page)%Z ->
  page_posts relevant_posts current_page
  = firstn 100 (skipn (100 * Z.to_nat
                         (clamp_page (Z.of_nat (length relevant_posts)) current_page))
                      relevant_posts).
Proof.
  intros Hne Hp. unfold page_posts.
  set (total := Z.of_nat (length relevant_posts)).
  assert (Ht : (1 <= total)%Z).
  { unfold total. destruct relevant_posts; [congruence | simpl length; lia]. }
  set (page := clamp_page total current_page).
  assert (Hpage : (0 <= page /\ page * 100 <= total - 1)%Z).
  { unfold page. rewrite clamp_page_min. unfold max_page, posts_per_page.
    Z.to_euclidean_division_equations. lia. }
  unfold posts_per_page. rewrite iloc_window by (fold total; lia).
  replace (Z.to_nat (page * 100)) with (100 * Z.to_nat page) by lia.
  apply firstn_window. rewrite length_skipn. fold total in Ht |- *.
  assert (Z.of_nat (length relevant_posts) = total) by reflexivity. lia.
Qed.

(** C9.  The page size is 100.  For a non-empty result and a page index
    that is not negative, the page shown is the requested index brought
    down to [ceil(total/100) - 1], the index of the last page; the slice is
    the hundred rows from row [100 * page] on, or the rows that are left,
    and it is never empty; the pagination controls offer as many pages.
    For 250 posts the page index 5 yields the slice
    of the page index 2, the rows 200 to 249. *)
Theorem page_index_clamped (relevant_posts : list Post) (current_page : Z) :
  relevant_posts <> [] -> (0 <= current_page)%Z ->
  posts_per_page = 100%Z
  /\ total_pages (Z.of_nat (length relevant_posts))
     = ceil_div (Z.of_nat (length relevant_posts)) posts_per_page
  /\ (0 <= clamp_page (Z.of_nat (length relevant_posts)) current_page
      <= ceil_div (Z.of_nat (length relevant_posts)) posts_per_page - 1)%Z
  /\ clamp_page (Z.of_nat (length relevant_posts)) current_page
     = Z.min current_page
         (ceil_div (Z.of_nat (length relevant_posts)) posts_per_page - 1)
  /\ page_posts relevant_posts current_page
     = firstn 100
         (skipn (100 * Z.to_nat
                   (clamp_page (Z.of_nat (length relevant_posts)) current_page))
                relevant_posts)
  /\ page_posts relevant_posts current_page <> []
  /\ (length relevant_posts = 250 ->
      page_posts relevant_posts 5 = page_posts relevant_posts 2
      /\ page_posts relevant_posts 2 = skipn 200 relevant_posts).
Proof.
  intros Hne Hp.
  assert (Ht : (1 <= Z.of_nat (length relevant_posts))%Z).
  { destruct relevant_posts; [congruence | simpl length; lia]. }
  assert (Hmin : clamp_page (Z.of_nat (length relevant_posts)) current_page
                 = Z.min current_page
                     (ceil_div (Z.of_nat (length relevant_posts)) posts_per_page - 1)).
  { rewrite clamp_page_min, max_page_last_page by assumption. reflexivity. }
  assert (Hlast : (0 <= ceil_div (Z.of_nat (length relevant_posts)) posts_per_page - 1)%Z).
  { rewrite ceil_div_last_page by assumption. unfold posts_per_page.
    Z.to_euclidean_division_equations. lia. }
  split; [reflexivity|].
  split; [unfold total_pages; rewrite <- ceil_div_last_page by assumption; lia|].
  split; [rewrite Hmin; lia|]. split; [exact Hmin|].
  split; [apply page_posts_window; assumption|]. split.
  - rewrite page_posts_window by assumption. intros E.
    apply (f_equal (@length Post)) in E. rewrite length_firstn, length_skipn in E.
    simpl length in E.
    assert (100 * clamp_page (Z.of_nat (length relevant_posts)) current_page
            <= Z.of_nat (length relevant_posts) - 1)%Z.
    { rewrite clamp_page_min. unfold max_page, posts_per_page.
      Z.to_euclidean_division_equations. lia. }
    lia.
  - intros H250.
    rewrite (page_posts_window relevant_posts 5) by (assumption || lia).
    rewrite (page_posts_window relevant_posts 2) by (assumption || lia).
    rewrite H250. change (clamp_page (Z.of_nat 250) 5) with 2%Z.
    change (clamp_page (Z.of_nat 250) 2) with 2%Z.
    split; [reflexivity|].
    apply firstn_all2. rewrite length_skipn, H250. simpl. lia.
Qed.

(** 250 posts: the page index 5 shows the rows 200 to 249, as the page
    index 2 does. *)
Lemma page_index_clamped_250 :
  page_posts (numbered_posts 250) 5 = page_posts (numbered_posts 250) 2
  /\ page_posts (numbered_posts 250) 2 = skipn 200 (numbered_posts 250).
Proof.
  apply (page_index_clamped (numbered_posts 250) 5).
  - discriminate.
  - lia.
  - reflexivity.
Defined.

(** ** Recency filter *)

(** C10.  A post whose date cannot be read (the column holds a string the
    parser rejects, or a number the conversion rejects, or nothing) passes
    the filter of every setting: it is within the time frame and stays in
    the filtered frame. *)
Theorem recency_fail_open (strptime : str -> option Z)
  (fromtimestamp : Z -> option Z) (now : Z) (recency_filter : str)
  (df : list Post) (row : Post) :
  In row df -> date_unparsable strptime fromtimestamp row ->
  is_within_timeframe strptime fromtimestamp now recency_filter row = true
  /\ In row (filter_posts_by_recency strptime fromtimestamp now df recency_filter).
Proof.
  intros Hin Hd.
  assert (Hn : get_post_datetime strptime fromtimestamp row = None).
  { unfold get_post_datetime. unfold date_unparsable in Hd.
    destruct (date_field row); auto. }
  assert (Hw : is_within_timeframe strptime fromtimestamp now recency_filter row = true).
  { unfold is_within_timeframe. rewrite Hn. reflexivity. }
  split; [exact Hw|].
  unfold filter_posts_by_recency. destruct df as [|p df]; [destruct Hin|].
  apply filter_In. split; assumption.
Qed.

(** The post dated "yesterday" passes the filter "Today", which drops the
    post of 1 August when the clock shows 24 August. *)
Lemma recency_fail_open_today :
  (is_within_timeframe strptime_fixed (fromtimestamp_fixed 0) sample_now
     (py "Today") garbled_post = true
   /\ In garbled_post
        (filter_posts_by_recency strptime_fixed (fromtimestamp_fixed 0) sample_now
           [august_post; garbled_post] (py "Today")))
  /\ filter_posts_by_recency strptime_fixed (fromtimestamp_fixed 0) sample_now
       [august_post; garbled_post] (py "Today") = [garbled_post].
Proof.
  split.
  - apply (recency_fail_open strptime_fixed (fromtimestamp_fixed 0) sample_now
             (py "Today") [august_post; garbled_post] garbled_post).
    + simpl. right. left. reflexivity.
    + reflexivity.
  - vm_compute. reflexivity.
Defined.

(* ===================================================================== *)
(** * Part IV.  Further properties of the code                            *)
(* ===================================================================== *)

(** ** Matching and letter case *)

Lemma is_word_opt_lower (o : option ascii) :
  is_word_opt (lower_opt o) = is_word_opt o.
Proof. destruct o; simpl; [apply is_word_lower_char | reflexivity]. Qed.

Lemma hd_error_lower (s : str) : hd_error (lower s) = lower_opt (hd_error s).
Proof. destruct s; reflexivity. Qed.

Lemma ieq_lower_r (c t : ascii) : ieq c (lower_char t) = ieq c t.
Proof. unfold ieq. rewrite lower_char_idem. reflexivity. Qed.

Lemma eat_lower (lit : str) (prev : option ascii) (rest : str) :
  eat lit (lower_opt prev) (lower rest)
  = option_map (fun e => (lower_opt (fst e), lower (snd e))) (eat lit prev rest).
Proof.
  revert prev rest; induction lit as [|c lit IH]; intros prev rest; simpl;
    [reflexivity|].
  destruct rest as [|t rest]; simpl; [reflexivity|].
  rewrite ieq_lower_r. destruct (ieq c t); [|reflexivity].
  apply (IH (Some t) rest).
Qed.

Lemma match_here_lower (p : pattern) (prev : option ascii) (rest : str) :
  match_here p (lower_opt prev) (lower rest) = match_here p prev rest.
Proof.
  revert prev rest; induction p as [|i p IH]; intros prev rest; [reflexivity|].
  destruct i; cbn [match_here];
    rewrite ?is_word_opt_lower, ?hd_error_lower, ?is_word_opt_lower, ?IH;
    try reflexivity.
  - rewrite eat_lower. destruct (eat s prev rest) as [[pv r]|]; simpl;
      [apply IH | reflexivity].
  - f_equal. induction alts as [|a alts IHa]; simpl; [reflexivity|].
    rewrite IHa, eat_lower.
    destruct (eat a prev rest) as [[pv r]|]; simpl; [rewrite IH|]; reflexivity.
Qed.

Lemma search_from_lower (p : pattern) (prev : option ascii) (rest : str) :
  search_from p (lower_opt prev) (lower rest) = search_from p prev rest.
Proof.
  revert prev; induction rest as [|c rest IH]; intros prev; simpl.
  - rewrite <- (match_here_lower p prev []). reflexivity.
  - rewrite <- (match_here_lower p prev (c :: rest)). simpl. f_equal.
    apply (IH (Some c)).
Qed.

Lemma keyword_search_lower (w text : str) :
  keyword_search w (lower text) = keyword_search w text.
Proof. apply (search_from_lower (keyword_pattern w) None text). Qed.

Lemma any_word_matches_lower (words : list str) (text : str) :
  any_word_matches words (lower text) = any_word_matches words text.
Proof.
  unfold any_word_matches. induction words as [|w words IH]; simpl;
    [reflexivity|].
  rewrite keyword_search_lower, IH. reflexivity.
Qed.

(** X1.  The filter does not see the letter case of a post: two posts
    whose title+body and whose titles differ in letter case only are both
    accepted or both rejected, whatever the keywords. *)
Theorem has_keyword_match_ignores_text_case (current_keywords age_keywords : list str)
  (row row' : Post) :
  lower (full_text row) = lower (full_text row') ->
  lower (title_text row) = lower (title_text row') ->
  has_keyword_match current_keywords age_keywords row
  = has_keyword_match current_keywords age_keywords row'.
Proof.
  intros Hf Ht. unfold has_keyword_match, regular_match, age_match.
  rewrite <- (any_word_matches_lower _ (full_text row)),
          <- (any_word_matches_lower _ (title_text row)), Hf, Ht,
          !any_word_matches_lower.
  reflexivity.
Qed.

Lemma has_keyword_match_ignores_text_case_example :
  has_keyword_match [py "travel"] [py "25"] (post_titled "25 f TRAVEL Buddy")
  = has_keyword_match [py "travel"] [py "25"] (post_titled "25 F travel buddy").
Proof.
  apply has_keyword_match_ignores_text_case; reflexivity.
Defined.

Lemma is_space_lower_char (c : ascii) : is_space (lower_char c) = is_space c.
Proof. destruct c as [[] [] [] [] [] [] [] []]; reflexivity. Qed.

Lemma lstrip_lower (s : str) : lstrip (lower s) = lower (lstrip s).
Proof.
  induction s as [|c s IH]; simpl; [reflexivity|].
  rewrite is_space_lower_char. destruct (is_space c); [exact IH | reflexivity].
Qed.

Lemma strip_lower (s : str) : strip (lower s) = lower (strip s).
Proof.
  unfold strip, rstrip, lower. rewrite lstrip_lower. unfold lower.
  rewrite <- map_rev, lstrip_lower. unfold lower. rewrite map_rev. reflexivity.
Qed.

Lemma add_keyword_lower (k : str) : add_keyword (lower k) = add_keyword k.
Proof.
  unfold add_keyword. rewrite strip_lower, lower_length, lower_idem. reflexivity.
Qed.

Lemma words_to_highlight_lower (keywords : list str) :
  words_to_highlight (map lower keywords) = words_to_highlight keywords.
Proof.
  unfold words_to_highlight. induction keywords as [|k ks IH]; simpl;
    [reflexivity|].
  rewrite add_keyword_lower, IH. reflexivity.
Qed.

Lemma truthy_map {A B : Type} (f : A -> B) (l : list A) :
  truthy (map f l) = truthy l.
Proof. destruct l; reflexivity. Qed.

(** X2.  Nor does it see the letter case of the keywords: the keywords in
    lower case accept the same posts and mark the same words. *)
Theorem keywords_ignore_case (current_keywords age_keywords : list str)
  (row : Post) (text : str) :
  has_keyword_match (map lower current_keywords) (map lower age_keywords) row
  = has_keyword_match current_keywords age_keywords row
  /\ highlight_keywords_in_text text (map lower current_keywords)
     = highlight_keywords_in_text text current_keywords.
Proof.
  unfold has_keyword_match, regular_match, age_match, highlight_keywords_in_text.
  rewrite !truthy_map, !words_to_highlight_lower. split; reflexivity.
Qed.

(** ** What the pattern of a word finds *)

(** X3.  For every word the pattern of the filter and of the highlighter
    finds a match in a text exactly when the text holds the word, in any
    letter case and not preceded by a word character, and then: for a word of
    four characters or more, at most one of the suffixes ing, ed, er, s, ly
    and a word boundary; for a shorter word, no word character. *)
Theorem keyword_pattern_meaning (word text : str) :
  (4 <= length word ->
   (keyword_search word text = true <-> suffixed_token word text))
  /\ (length word < 4 ->
      (keyword_search word text = true <-> standalone_token word text)).
Proof.
  split; intros H; [apply keyword_search_long | apply keyword_search_short];
    exact H.
Qed.

(** ** The age filter *)

Lemma ages_two_digit (n : nat) :
  10 <= n <= 99 ->
  length (str_of_nat n) = 2
  /\ add_keyword (str_of_nat n) = [str_of_nat n; str_of_nat n].
Proof.
  intros H.
  assert (A : forallb two_digit_word (seq 10 90) = true) by (vm_compute; reflexivity).
  rewrite forallb_forall in A.
  assert (Hn : two_digit_word n = true) by (apply A, in_seq; lia).
  unfold two_digit_word in Hn. apply andb_true_iff in Hn. destruct Hn as [H1 H2].
  apply Nat.eqb_eq in H1. split; [exact H1|].
  destruct (add_keyword (str_of_nat n)) as [|a [|b [|c l]]]; try discriminate.
  apply andb_true_iff in H2. destruct H2 as [Ha Hb].
  apply str_eqb_eq in Ha, Hb. subst. reflexivity.
Qed.

Lemma age_words (ages : list nat) (w : str) :
  (forall n, In n ages -> 10 <= n <= 99) ->
  In w (words_to_highlight (map str_of_nat ages)) <->
  exists n, In n ages /\ w = str_of_nat n.
Proof.
  intros H. unfold words_to_highlight. rewrite in_flat_map. split.
  - intros (k & Hk & Hw). apply in_map_iff in Hk. destruct Hk as (n & <- & Hn).
    destruct (ages_two_digit n (H n Hn)) as [_ E]. rewrite E in Hw.
    exists n. split; [assumption|]. destruct Hw as [<- | [<- | []]]; reflexivity.
  - intros (n & Hn & ->). exists (str_of_nat n). split; [apply in_map; assumption|].
    destruct (ages_two_digit n (H n Hn)) as [_ E]. rewrite E. left; reflexivity.
Qed.

(** X4.  With no free-text keyword and an age range other than the whole
    range 18..99, a post is accepted exactly when its title holds one of the
    ages of the range as a number of its own, with no letter, digit or
    underscore next to it. *)
Theorem age_range_filter (min_age max_age : nat) (row : Post) :
  18 <= min_age -> min_age <= max_age -> max_age <= 99 ->
  (min_age, max_age) <> (18, 99) ->
  has_keyword_match [] (age_keywords_of_range min_age max_age) row = true <->
  exists age, min_age <= age <= max_age
              /\ standalone_token (str_of_nat age) (title_text row).
Proof.
  intros Hlo Hle Hhi Hne. unfold age_keywords_of_range.
  assert (Hd : negb (min_age =? 18) || negb (max_age =? 99) = true).
  { destruct (Nat.eqb_spec min_age 18); destruct (Nat.eqb_spec max_age 99);
      try reflexivity. subst. congruence. }
  rewrite Hd.
  assert (Hr : forall n, In n (seq min_age (max_age + 1 - min_age)) <->
                         min_age <= n <= max_age).
  { intros n. rewrite in_seq. lia. }
  unfold has_keyword_match. cbn [truthy andb].
  assert (Ht : truthy (map str_of_nat (seq min_age (max_age + 1 - min_age))) = true).
  { destruct (max_age + 1 - min_age) eqn:E; [lia | reflexivity]. }
  rewrite Ht. cbn [andb negb]. unfold age_match. rewrite Ht.
  rewrite any_word_matches_spec. split.
  - intros (w & Hw & Ho). apply age_words in Hw; [|intros n Hn; apply Hr in Hn; lia].
    destruct Hw as (n & Hn & ->). exists n. split; [apply Hr; assumption|].
    unfold word_occurs in Ho.
    destruct (ages_two_digit n) as [L _]; [apply Hr in Hn; lia|].
    rewrite L in Ho. exact Ho.
  - intros (n & Hn & Ho). exists (str_of_nat n). split.
    + apply age_words; [intros m Hm; apply Hr in Hm; lia|].
      exists n. split; [apply Hr; assumption | reflexivity].
    + unfold word_occurs. destruct (ages_two_digit n) as [L _]; [lia|].
      rewrite L. exact Ho.
Qed.

Lemma age_range_filter_30_40 :
  has_keyword_match [] (age_keywords_of_range 30 40) (post_titled "35 M looking for letters")
  = true.
Proof.
  apply (age_range_filter 30 40 (post_titled "35 M looking for letters"));
    try lia; try discriminate.
  exists 35. split; [lia|].
  exists [], (py "35"), (py " M looking for letters"). repeat split.
Defined.

(** ** Keywords that find nothing *)

Lemma stop_word_keyword (k : str) :
  In (lower (strip k)) stop_words -> remove_stop_words (add_keyword k) = [].
Proof.
  intros H.
  assert (A : forallb stop_word_dropped stop_words = true) by (vm_compute; reflexivity).
  rewrite forallb_forall in A. specialize (A _ H).
  unfold stop_word_dropped in A. rewrite lower_length in A.
  unfold add_keyword.
  destruct (remove_stop_words _) eqn:E in A; [|discriminate]. exact E.
Qed.

Lemma short_keyword (k : str) :
  length (strip k) < 2 -> add_keyword k = [].
Proof.
  intros H. unfold add_keyword.
  destruct (Nat.leb_spec 2 (length (strip k))); [lia | reflexivity].
Qed.

Lemma remove_stop_words_app (l1 l2 : list str) :
  remove_stop_words (l1 ++ l2) = remove_stop_words l1 ++ remove_stop_words l2.
Proof. apply filter_app. Qed.

Lemma useless_keywords (keywords : list str) :
  (forall k, In k keywords ->
             In (lower (strip k)) stop_words \/ length (strip k) < 2) ->
  remove_stop_words (words_to_highlight keywords) = [].
Proof.
  unfold words_to_highlight. induction keywords as [|k ks IH]; intros H;
    [reflexivity|].
  simpl. rewrite remove_stop_words_app, IH.
  - rewrite app_nil_r. destruct (H k (or_introl eq_refl)) as [Hs | Hs].
    + apply stop_word_keyword. exact Hs.
    + rewrite short_keyword by exact Hs. reflexivity.
  - intros k' Hk'. apply H. right; assumption.
Qed.

(** X5.  Keywords that are stop words or, white space around them apart,
    shorter than two characters find nothing, in any letter case: the filter
    accepts no post and the highlighter marks no text. *)
Theorem useless_keywords_match_nothing (keywords : list str) (row : Post)
  (text : str) :
  (forall k, In k keywords ->
             In (lower (strip k)) stop_words \/ length (strip k) < 2) ->
  has_keyword_match keywords [] row = false
  /\ highlight_keywords_in_text text keywords = text.
Proof.
  intros H. pose proof (useless_keywords keywords H) as E. split.
  - unfold has_keyword_match. cbn [truthy andb negb].
    rewrite andb_false_r. unfold regular_match. rewrite E.
    destruct (truthy keywords); reflexivity.
  - unfold highlight_keywords_in_text. rewrite E.
    destruct (negb (truthy text) || negb (truthy keywords)); reflexivity.
Qed.

Lemma useless_keywords_match_nothing_example :
  has_keyword_match [py " Or "; py "AND"; py "x"] [] (post_titled "x and y or z") = false
  /\ highlight_keywords_in_text (py "x and y or z") [py " Or "; py "AND"; py "x"]
     = py "x and y or z".
Proof.
  apply useless_keywords_match_nothing.
  intros k [<- | [<- | [<- | []]]];
    [left | left | right; vm_compute; lia];
    vm_compute; repeat first [left; reflexivity | right].
Defined.

(** ** Highlighter and filter *)

Lemma set_of_In (w : str) (l : list str) : In w (set_of l) <-> In w l.
Proof.
  induction l as [|x l IH]; simpl; [tauto|].
  rewrite filter_In, IH, negb_true_iff, str_eqb_neq. split.
  - intros [H | [H _]]; auto.
  - intros [H | H]; [auto|].
    destruct (list_eq_dec ascii_dec x w) as [E | E]; auto.
Qed.

Lemma sorted_words_In (w : str) (l : list str) :
  In w (stable_sort longest_first (set_of l)) <-> In w l.
Proof.
  split; intros H.
  - apply set_of_In. eapply Permutation_in; [apply stable_sort_perm | exact H].
  - eapply Permutation_in; [symmetry; apply stable_sort_perm|].
    apply set_of_In. exact H.
Qed.

Lemma re_sub_no_match (p : pattern) (text : str) :
  re_search p text = false -> re_sub p text = text.
Proof. apply sub_from_no_match. Qed.

Lemma re_sub_length (p : pattern) (text : str) :
  length text <= length (re_sub p text).
Proof. apply sub_from_length. Qed.

Lemma re_sub_grows (p : pattern) (text : str) :
  re_search p text = true -> length text < length (re_sub p text).
Proof. apply sub_from_match. lia. Qed.

Lemma highlight_words_length (words : list str) (text : str) :
  length text <= length (highlight_words words text).
Proof.
  revert text; induction words as [|w ws IH]; intros text; simpl; [lia|].
  specialize (IH (re_sub (keyword_pattern w) text)).
  pose proof (re_sub_length (keyword_pattern w) text). unfold highlight_words in *. lia.
Qed.

Lemma highlight_words_none (words : list str) (text : str) :
  any_word_matches words text = false -> highlight_words words text = text.
Proof.
  revert text; induction words as [|w ws IH]; intros text H; [reflexivity|].
  simpl in H. apply orb_false_iff in H. destruct H as [H1 H2].
  simpl. rewrite re_sub_no_match by exact H1. apply IH. exact H2.
Qed.

Lemma highlight_words_some (words : list str) (text : str) :
  any_word_matches words text = true ->
  length text < length (highlight_words words text).
Proof.
  revert text; induction words as [|w ws IH]; intros text H; [discriminate|].
  simpl in H. simpl.
  destruct (keyword_search w text) eqn:E.
  - pose proof (re_sub_grows (keyword_pattern w) text E).
    pose proof (highlight_words_length ws (re_sub (keyword_pattern w) text)).
    unfold highlight_words in *. lia.
  - rewrite re_sub_no_match by exact E. apply IH. exact H.
Qed.

Lemma any_word_matches_ext (l1 l2 : list str) (text : str) :
  (forall w, In w l1 <-> In w l2) ->
  any_word_matches l1 text = any_word_matches l2 text.
Proof.
  intros H. unfold any_word_matches.
  destruct (existsb _ l2) eqn:E2.
  - apply existsb_exists in E2. destruct E2 as (w & Hw & E).
    apply existsb_exists. exists w. split; [apply H; assumption | exact E].
  - destruct (existsb _ l1) eqn:E1; [|reflexivity].
    apply existsb_exists in E1. destruct E1 as (w & Hw & E).
    assert (existsb (fun word => keyword_search word text) l2 = true)
      by (apply existsb_exists; exists w; split; [apply H; assumption | exact E]).
    congruence.
Qed.

Lemma keyword_search_empty_text (w : str) :
  w <> [] -> keyword_search w [] = false.
Proof.
  intros H. destruct w as [|c w]; [congruence|].
  unfold keyword_search, keyword_pattern, re_search.
  destruct (4 <=? length (c :: w)); reflexivity.
Qed.

(** X6.  The highlighter changes a text exactly when the filter's
    free-text test finds one of the words in it: a text the test rejects
    comes back as it is, and a text it accepts comes back longer, with a
    badge in it. *)
Theorem highlight_marks_what_matches (text : str) (keywords : list str) :
  (highlight_keywords_in_text text keywords <> text <->
   any_word_matches (remove_stop_words (words_to_highlight keywords)) text = true)
  /\ length text <= length (highlight_keywords_in_text text keywords).
Proof.
  set (ws := remove_stop_words (words_to_highlight keywords)).
  assert (Em : any_word_matches (stable_sort longest_first (set_of ws)) text
               = any_word_matches ws text).
  { apply any_word_matches_ext. intros w. apply sorted_words_In. }
  unfold highlight_keywords_in_text. fold ws.
  change (fold_left _ (stable_sort longest_first (set_of ws)) text)
    with (highlight_words (stable_sort longest_first (set_of ws)) text).
  destruct text as [|c text].
  - simpl. split; [|lia]. split; [congruence|]. intros H. exfalso.
    unfold any_word_matches in H. apply existsb_exists in H.
    destruct H as (w & Hw & H). rewrite keyword_search_empty_text in H;
      [discriminate|].
    unfold ws, remove_stop_words in Hw. apply filter_In in Hw.
    destruct Hw as [_ Hw]. apply andb_true_iff in Hw. destruct Hw as [_ Hw].
    apply Nat.leb_le in Hw. intros ->. simpl in Hw. lia.
  - cbn [truthy negb orb]. destruct keywords as [|k ks].
    + simpl. split; [|lia]. split; [congruence | discriminate].
    + cbn [truthy negb]. split; [|apply highlight_words_length].
      rewrite <- Em. split.
      * intros H. destruct (any_word_matches _ (c :: text)) eqn:E; [reflexivity|].
        exfalso. apply H. apply highlight_words_none. exact E.
      * intros H E. apply highlight_words_some in H. rewrite E in H. lia.
Qed.

(** ** Sorting the results *)

Lemma sort_by_date_unfold (df : list Post) :
  sort_results df (py "Date Posted") = stable_sort more_recent_first df.
Proof. destruct df; reflexivity. Qed.

(** X7.  Sorting by "Date Posted" rearranges the posts, most recent
    first: no post is lost or added. *)
Theorem sort_by_date (df : list Post) :
  sorted_by_recency (sort_results df (py "Date Posted"))
  /\ Permutation (sort_results df (py "Date Posted")) df.
Proof.
  rewrite sort_by_date_unfold. split.
  - exact (stable_sort_ordered more_recent_first more_recent_first_total
             more_recent_first_trans df).
  - apply stable_sort_perm.
Qed.

(** ** Deduplicator *)

(** When no author other than "[deleted]" has two posts, nothing is
    dropped. *)
Lemma deduplicate_keeps_all (df : list Post) :
  NoDup (map author (filter (fun p => negb (mask_deleted p)) df)) ->
  Permutation (filter_deleted_and_deduplicate_users df) df.
Proof.
  intros Hn. rewrite deduplicate_unfold. unfold sort_values_created_time_desc.
  etransitivity; [apply (stable_sort_perm more_recent_first)|].
  etransitivity; [|apply partition_deleted_perm].
  apply Permutation_app.
  - unfold drop_duplicates_author. rewrite drop_duplicates_from_fixed.
    + rewrite sort_filter. apply (stable_sort_perm more_recent_first).
    + eapply Permutation_NoDup; [|exact Hn].
      apply Permutation_map. rewrite sort_filter. symmetry.
      apply (stable_sort_perm more_recent_first).
    + reflexivity.
  - rewrite sort_filter. apply (stable_sort_perm more_recent_first).
Qed.

(** The posts kept are the first post of each author in the frame sorted
    most recent first, and the posts of "[deleted]". *)
Lemma deduplicate_perm (df : list Post) :
  Permutation (filter_deleted_and_deduplicate_users df)
    (drop_duplicates_author
       (filter (fun p => negb (mask_deleted p)) (sort_values_created_time_desc df))
     ++ filter mask_deleted df).
Proof.
  rewrite deduplicate_unfold. unfold sort_values_created_time_desc.
  etransitivity; [apply (stable_sort_perm more_recent_first)|].
  apply Permutation_app; [reflexivity|].
  rewrite sort_filter. apply (stable_sort_perm more_recent_first).
Qed.

Lemma drop_duplicates_from_length (seen : list str) (df : list Post) :
  length (drop_duplicates_from seen df) <= length df.
Proof.
  revert seen; induction df as [|p df IH]; intros seen; simpl; [lia|].
  destruct (str_mem (author p) seen); simpl.
  - specialize (IH seen). lia.
  - specialize (IH (author p :: seen)). lia.
Qed.

Lemma drop_duplicates_from_shrinks (seen : list str) (df : list Post) :
  ~ NoDup (map author df) -> length (drop_duplicates_from seen df) < length df.
Proof.
  revert seen; induction df as [|p df IH]; intros seen H; simpl.
  - exfalso. apply H. constructor.
  - destruct (str_mem (author p) seen) eqn:E; simpl.
    + pose proof (drop_duplicates_from_length seen df). lia.
    + destruct (in_dec (list_eq_dec ascii_dec) (author p) (map author df)) as [Hin | Hin].
      * apply in_map_iff in Hin. destruct Hin as (q & Hq & Hin).
        apply in_split in Hin. destruct Hin as (l1 & l2 & ->).
        clear IH H.
        assert (L : forall l s, str_mem (author q) s = true ->
                     length (drop_duplicates_from s (l ++ q :: l2)) < length (l ++ q :: l2)).
        { induction l as [|x l IHl]; intros s Hs; simpl.
          - rewrite Hs. pose proof (drop_duplicates_from_length s l2). lia.
          - destruct (str_mem (author x) s); simpl.
            + specialize (IHl s Hs). lia.
            + assert (Hs' : str_mem (author q) (author x :: s) = true)
                by (simpl; rewrite Hs; apply orb_true_r).
              specialize (IHl _ Hs'). lia. }
        assert (Hs : str_mem (author q) (author p :: seen) = true)
          by (simpl; rewrite Hq, str_eqb_refl; reflexivity).
        specialize (L l1 _ Hs). lia.
      * assert (Hn : ~ NoDup (map author df)).
        { intros Hn. apply H. simpl. constructor; assumption. }
        specialize (IH (author p :: seen) Hn). lia.
Qed.

(** X8.  The deduplicator never adds a post, and it drops one exactly
    when an author other than "[deleted]" has two posts in the frame: if no
    such author has two, the result holds the posts of the frame, each as
    often as the frame does; otherwise it is shorter. *)
Theorem deduplicate_drops_only_duplicates (df : list Post) :
  length (filter_deleted_and_deduplicate_users df) <= length df
  /\ (length (filter_deleted_and_deduplicate_users df) = length df <->
      NoDup (map author (filter (fun p => negb (mask_deleted p)) df)))
  /\ (NoDup (map author (filter (fun p => negb (mask_deleted p)) df)) ->
      Permutation (filter_deleted_and_deduplicate_users df) df).
Proof.
  pose proof (Permutation_length (deduplicate_perm df)) as L.
  pose proof (Permutation_length (partition_deleted_perm df)) as L'.
  rewrite length_app in L, L'.
  assert (Ls : length (filter (fun p => negb (mask_deleted p))
                         (sort_values_created_time_desc df))
               = length (filter (fun p => negb (mask_deleted p)) df)).
  { unfold sort_values_created_time_desc. rewrite sort_filter.
    apply Permutation_length, (stable_sort_perm more_recent_first). }
  pose proof (drop_duplicates_from_length []
                (filter (fun p => negb (mask_deleted p))
                   (sort_values_created_time_desc df))) as Ld.
  unfold drop_duplicates_author in L.
  split; [lia|]. split; [|apply deduplicate_keeps_all]. split.
  - intros E.
    destruct (ListDec.NoDup_dec (list_eq_dec ascii_dec)
                (map author (filter (fun p => negb (mask_deleted p)) df)))
      as [Hn | Hn]; [exact Hn|].
    exfalso.
    assert (Hn' : ~ NoDup (map author (filter (fun p => negb (mask_deleted p))
                                         (sort_values_created_time_desc df)))).
    { intros H. apply Hn. eapply Permutation_NoDup; [|exact H].
      apply Permutation_map. unfold sort_values_created_time_desc.
      rewrite sort_filter. apply (stable_sort_perm more_recent_first). }
    pose proof (drop_duplicates_from_shrinks [] _ Hn'). lia.
  - intros Hn. apply Permutation_length, deduplicate_keeps_all. exact Hn.
Qed.

(** ** Pages *)

Lemma chunks_cover {A : Type} (n : nat) (l : list A) :
  length l <= 100 * n ->
  concat (map (fun i => firstn 100 (skipn (100 * i) l)) (seq 0 n)) = l.
Proof.
  revert l; induction n as [|n IH]; intros l H.
  - destruct l; [reflexivity | simpl in H; lia].
  - cbn [seq map concat]. rewrite <- seq_shift, map_map.
    rewrite (map_ext _ (fun i => firstn 100 (skipn (100 * i) (skipn 100 l)))).
    + rewrite IH by (rewrite length_skipn; lia).
      change (100 * 0) with 0. cbn [skipn]. apply firstn_skipn.
    + intros i. rewrite skipn_skipn. f_equal. f_equal. lia.
Qed.

Lemma clamp_page_in_range (total page : Z) :
  (0 <= page <= max_page total)%Z -> clamp_page total page = page.
Proof. intros H. rewrite clamp_page_min. lia. Qed.

Lemma page_posts_in_range (relevant_posts : list Post) (i : nat) :
  relevant_posts <> [] ->
  (Z.of_nat i <= max_page (Z.of_nat (length relevant_posts)))%Z ->
  page_posts relevant_posts (Z.of_nat i)
  = firstn 100 (skipn (100 * i) relevant_posts).
Proof.
  intros Hne Hi. rewrite page_posts_window by (assumption || lia).
  rewrite clamp_page_in_range by lia. rewrite Nat2Z.id. reflexivity.
Qed.

Lemma page_posts_concat (relevant_posts : list Post) :
  concat (map (fun i => page_posts relevant_posts (Z.of_nat i))
              (seq 0 (Z.to_nat (total_pages (Z.of_nat (length relevant_posts))))))
  = relevant_posts.
Proof.
  destruct relevant_posts as [|p0 ps] eqn:El; [reflexivity|].
  rewrite <- El. assert (Hne : relevant_posts <> []) by (rewrite El; discriminate).
  clear El p0 ps.
  set (total := Z.of_nat (length relevant_posts)).
  assert (Ht : (1 <= total)%Z).
  { unfold total. destruct relevant_posts; [congruence | simpl length; lia]. }
  assert (Hm : (max_page total = (total - 1) / 100
                /\ total_pages total = max_page total + 1)%Z).
  { unfold max_page, total_pages, posts_per_page.
    Z.to_euclidean_division_equations. lia. }
  destruct Hm as [Hm Hp].
  rewrite (map_ext_in _ (fun i => firstn 100 (skipn (100 * i) relevant_posts))).
  - apply chunks_cover.
    assert (Z.of_nat (length relevant_posts) = total) by reflexivity.
    Z.to_euclidean_division_equations. lia.
  - intros i Hi. apply in_seq in Hi. apply page_posts_in_range; [assumption|].
    fold total. lia.
Qed.

Lemma page_posts_length (relevant_posts : list Post) (page : Z) :
  length (page_posts relevant_posts page) <= 100.
Proof.
  unfold page_posts, iloc. rewrite length_firstn.
  unfold slice_bound, clamp_page, posts_per_page.
  destruct (Z.gtb_spec page (max_page (Z.of_nat (length relevant_posts))));
    repeat match goal with
           | |- context [Z.ltb ?a ?b] => destruct (Z.ltb_spec a b)
           end; lia.
Qed.

(** X9.  The pages cut the results into consecutive runs: put one after
    the other, the pages 0, 1, ... up to the last one give back the results,
    every post once and in order; no page holds more than 100 posts and every
    page before the last holds exactly 100. *)
Theorem pages_cover_results (relevant_posts : list Post) :
  concat (map (fun i => page_posts relevant_posts (Z.of_nat i))
              (seq 0 (Z.to_nat (total_pages (Z.of_nat (length relevant_posts))))))
  = relevant_posts
  /\ (forall page, length (page_posts relevant_posts page) <= 100)
  /\ (forall page, (0 <= page < max_page (Z.of_nat (length relevant_posts)))%Z ->
                   length (page_posts relevant_posts page) = 100).
Proof.
  split; [apply page_posts_concat|]. split; [apply page_posts_length|].
  intros page H.
  assert (Hne : relevant_posts <> []).
  { intros ->. change (max_page (Z.of_nat (length (@nil Post)))) with 0%Z in H. lia. }
  rewrite page_posts_window by (assumption || lia).
  rewrite clamp_page_in_range by lia.
  rewrite length_firstn, length_skipn.
  unfold max_page, posts_per_page in H.
  Z.to_euclidean_division_equations. lia.
Qed.

(** ** Recency filter, date badge and date label *)

Section DateFacts.
Variable strptime : str -> option Z.
Variable fromtimestamp : Z -> option Z.
Variable now : Z.
Variable error_text : date_cell -> str.

Local Abbreviation dated := (get_post_datetime strptime fromtimestamp).
Local Abbreviation within := (is_within_timeframe strptime fromtimestamp now).
Local Abbreviation recent := (filter_posts_by_recency strptime fromtimestamp now).
Local Abbreviation badge_color := (get_badge_color_for_date strptime fromtimestamp now).
Local Abbreviation label := (format_post_date strptime fromtimestamp now error_text).

(** X10.  For a post whose date can be read, "Today" means less than 24
    hours old and not dated after the clock; "Last week" means less than 8
    days old, "Last month" less than 31 days old, posts dated after the
    clock included. *)
Theorem recency_windows (row : Post) (post_date : Z) :
  dated row = Some post_date ->
  (within (py "Today") row = true <-> (0 <= now - post_date < 86400)%Z)
  /\ (within (py "Last week") row = true <-> (now - post_date < 8 * 86400)%Z)
  /\ (within (py "Last month") row = true <-> (now - post_date < 31 * 86400)%Z).
Proof.
  intros H. unfold is_within_timeframe. rewrite H.
  unfold timedelta_days.
  change (str_eqb (py "Today") (py "Today")) with true.
  change (str_eqb (py "Last week") (py "Today")) with false.
  change (str_eqb (py "Last week") (py "Last week")) with true.
  change (str_eqb (py "Last month") (py "Today")) with false.
  change (str_eqb (py "Last month") (py "Last week")) with false.
  change (str_eqb (py "Last month") (py "Last month")) with true.
  cbv iota. rewrite Z.eqb_eq, !Z.leb_le.
  repeat split; intros; Z.to_euclidean_division_equations; lia.
Qed.

Lemma within_nested (row : Post) :
  (within (py "Today") row = true -> within (py "Last week") row = true)
  /\ (within (py "Last week") row = true -> within (py "Last month") row = true).
Proof.
  unfold is_within_timeframe.
  destruct (get_post_datetime strptime fromtimestamp row) as [d|]; [|auto].
  change (str_eqb (py "Today") (py "Today")) with true.
  change (str_eqb (py "Last week") (py "Today")) with false.
  change (str_eqb (py "Last week") (py "Last week")) with true.
  change (str_eqb (py "Last month") (py "Today")) with false.
  change (str_eqb (py "Last month") (py "Last week")) with false.
  change (str_eqb (py "Last month") (py "Last month")) with true.
  cbv iota. rewrite Z.eqb_eq, !Z.leb_le. split; lia.
Qed.

Lemma recent_In (df : list Post) (recency_filter : str) (row : Post) :
  In row (recent df recency_filter) <->
  In row df /\ within recency_filter row = true.
Proof.
  unfold filter_posts_by_recency. destruct df as [|p df].
  - simpl. tauto.
  - apply filter_In.
Qed.

(** X11.  The settings are nested: what "Today" keeps "Last week" keeps,
    what "Last week" keeps "Last month" keeps, and whatever the setting the
    rows kept are rows of the frame. *)
Theorem recency_filters_nested (df : list Post) :
  incl (recent df (py "Today")) (recent df (py "Last week"))
  /\ incl (recent df (py "Last week")) (recent df (py "Last month"))
  /\ forall recency_filter, incl (recent df recency_filter) df.
Proof.
  split; [|split]; intros; intros row Hr; apply recent_In in Hr;
    try apply recent_In; destruct Hr as [H1 H2]; try split; auto;
    apply within_nested; assumption.
Qed.

(** X12.  Every setting other than "Today", "Last week" and "Last month"
    ("No filter", the value the slider offers, among them) keeps the whole
    frame. *)
Theorem recency_other_setting_keeps_all (df : list Post) (recency_filter : str) :
  recency_filter <> py "Today" -> recency_filter <> py "Last week" ->
  recency_filter <> py "Last month" ->
  recent df recency_filter = df.
Proof.
  intros H1 H2 H3. apply str_eqb_neq in H1, H2, H3.
  unfold filter_posts_by_recency. destruct df as [|p df]; [reflexivity|].
  apply filter_all. intros row _. unfold is_within_timeframe.
  rewrite H1, H2, H3.
  destruct (get_post_datetime strptime fromtimestamp row); [|reflexivity].
  destruct (str_eqb recency_filter (py "All time")); [reflexivity|].
  destruct (str_eqb recency_filter (py "More than a month")); reflexivity.
Qed.

Lemma dated_no_date (row : Post) :
  date_field row = DateNone -> dated row = None.
Proof. unfold get_post_datetime. intros ->. reflexivity. Qed.

Lemma badge_color_dated (row : Post) :
  badge_color row
  = match dated row with
    | Some date_obj =>
        if (timedelta_days (now - date_obj) <=? 1)%Z then py "green"
        else if (timedelta_days (now - date_obj) <=? 30)%Z then py "orange"
        else py "red"
    | None => py "green"
    end.
Proof.
  unfold get_badge_color_for_date, get_post_datetime.
  destruct (date_field row); reflexivity.
Qed.

(** X13.  The badge of a post is red exactly when the "Last month" filter
    drops the post; a post the "Today" filter keeps has a green badge, and
    so has a post whose date cannot be read. *)
Theorem badge_color_and_recency (row : Post) :
  (badge_color row = py "red" <-> within (py "Last month") row = false)
  /\ (within (py "Today") row = true -> badge_color row = py "green")
  /\ (dated row = None -> badge_color row = py "green").
Proof.
  rewrite badge_color_dated. unfold is_within_timeframe.
  destruct (dated row) as [d|].
  - change (str_eqb (py "Today") (py "Today")) with true.
    change (str_eqb (py "Last month") (py "Today")) with false.
    change (str_eqb (py "Last month") (py "Last week")) with false.
    change (str_eqb (py "Last month") (py "Last month")) with true.
    cbv iota.
    destruct (Z.leb_spec (timedelta_days (now - d)) 1);
      destruct (Z.leb_spec (timedelta_days (now - d)) 30);
      destruct (Z.eqb_spec (timedelta_days (now - d)) 0);
      try lia; repeat split; intros; try reflexivity; try discriminate; try lia.
  - repeat split; intros; try reflexivity; discriminate.
Qed.

Lemma label_dated (row : Post) (post_date : Z) :
  dated row = Some post_date ->
  label row
  = (let diff := (now - post_date)%Z in
     if (diff <? 60)%Z then py "just now"
     else if (diff / 60 <? 60)%Z then ago (diff / 60) "minute"
     else if (diff / 60 / 60 <? 24)%Z then ago (diff / 60 / 60) "hour"
     else if (timedelta_days diff <? 7)%Z then ago (timedelta_days diff) "day"
     else if (timedelta_days diff / 7 <? 4)%Z then ago (timedelta_days diff / 7) "week"
     else if (timedelta_days diff / 30 <? 12)%Z then ago (timedelta_days diff / 30) "month"
     else ago (timedelta_days diff / 365) "year").
Proof.
  intros H. unfold format_post_date.
  unfold get_post_datetime in H. unfold get_post_datetime.
  destruct (date_field row); rewrite ?H; try reflexivity. discriminate.
Qed.

(** X14.  The label of a post that is 28 or 29 days old is "0 months ago",
    and the label of a post that is 360 to 364 days old is "0 years ago":
    four weeks are no longer counted in weeks and not yet a month of 30
    days, twelve such months not yet a year of 365 days. *)
Theorem date_label_zero_counts (row : Post) (post_date : Z) :
  dated row = Some post_date ->
  ((28 * 86400 <= now - post_date < 30 * 86400)%Z -> label row = py "0 months ago")
  /\ ((360 * 86400 <= now - post_date < 365 * 86400)%Z -> label row = py "0 years ago").
Proof.
  intros H. rewrite (label_dated row post_date H). cbv zeta. unfold timedelta_days.
  split; intros R.
  - assert (D : ((now - post_date) / 86400 / 30 = 0)%Z)
      by (Z.to_euclidean_division_equations; lia).
    repeat match goal with
           | |- context [Z.ltb ?a ?b] =>
               destruct (Z.ltb_spec a b);
               [exfalso; Z.to_euclidean_division_equations; lia|]
           end.
    destruct (Z.ltb_spec ((now - post_date) / 86400 / 30) 12);
      [|exfalso; lia].
    rewrite D. reflexivity.
  - assert (D : ((now - post_date) / 86400 / 365 = 0)%Z)
      by (Z.to_euclidean_division_equations; lia).
    repeat match goal with
           | |- context [Z.ltb ?a ?b] =>
               destruct (Z.ltb_spec a b);
               [exfalso; Z.to_euclidean_division_equations; lia|]
           end.
    rewrite D. reflexivity.
Qed.

(** X15.  A post dated after the clock, or less than a minute before it,
    is labelled "just now"; a post with no date is labelled "Unknown date";
    a post whose date column holds a string of more than 8 characters that
    is no date is labelled with the first 10 characters of the string. *)
Theorem date_label_edges (row : Post) :
  (forall post_date, dated row = Some post_date -> (now - post_date < 60)%Z ->
                     label row = py "just now")
  /\ (created_time row = [] -> created_utc row = None ->
      label row = py "Unknown date")
  /\ (8 < length (created_time row) -> strptime (created_time row) = None ->
      label row = firstn 10 (created_time row)).
Proof.
  split; [|split].
  - intros d H L. rewrite (label_dated row d H). cbv zeta.
    destruct (Z.ltb_spec (now - d) 60); [reflexivity | lia].
  - intros H1 H2. unfold format_post_date, date_field. rewrite H1, H2.
    reflexivity.
  - intros H1 H2. unfold format_post_date, get_post_datetime, date_field.
    destruct (created_time row) as [|c s] eqn:E; [simpl in H1; lia|].
    rewrite H2. apply Nat.ltb_lt in H1. rewrite H1. reflexivity.
Qed.

End DateFacts.

Lemma recency_windows_august :
  is_within_timeframe strptime_fixed (fromtimestamp_fixed 0) sample_now
    (py "Last month") august_post = true.
Proof.
  apply (recency_windows strptime_fixed (fromtimestamp_fixed 0) sample_now
           august_post 1754035200%Z).
  - reflexivity.
  - unfold sample_now. lia.
Defined.

Lemma recency_no_filter_keeps_all :
  filter_posts_by_recency strptime_fixed (fromtimestamp_fixed 0) sample_now
    [august_post; garbled_post] (py "No filter")
  = [august_post; garbled_post].
Proof.
  apply recency_other_setting_keeps_all; discriminate.
Defined.

Lemma date_label_zero_months_july :
  format_post_date strptime_fixed (fromtimestamp_fixed 0) sample_now
    (fun _ => []) july_post = py "0 months ago".
Proof.
  apply (date_label_zero_counts strptime_fixed (fromtimestamp_fixed 0) sample_now
           (fun _ => []) july_post 1753655542%Z).
  - reflexivity.
  - unfold sample_now. lia.
Defined.

(** ** Fetcher *)

(** The requests already made and the pauses already taken stay in the
    trace. *)
Lemma fetch_loop_events (total_posts : nat) (responses : list batch)
  (all_posts : list Post) (after : option str) (events : list event) :
  snd (fetch_loop total_posts responses all_posts after events)
  = events ++ snd (fetch_loop total_posts responses all_posts after []).
Proof.
  revert all_posts after events.
  induction responses as [|[bp na] r IH]; intros acc a ev; cbn [fetch_loop].
  - destruct (length acc <? total_posts); cbn [snd];
      [reflexivity | symmetry; apply app_nil_r].
  - destruct (length acc <? total_posts); cbn [snd];
      [|symmetry; apply app_nil_r].
    destruct bp as [|x bp]; cbn [snd]; [reflexivity|].
    rewrite IH. symmetry. rewrite IH. symmetry.
    destruct ((length (acc ++ x :: bp) <? total_posts) && cursor_truthy na);
      cbn [app]; rewrite <- ?app_assoc; reflexivity.
Qed.



Lemma fetch_loop_limits (total_posts : nat) (responses : list batch)
  (all_posts : list Post) (after : option str) :
  Forall (request_in_bounds total_posts)
         (snd (fetch_loop total_posts responses all_posts after [])).
Proof.
  revert all_posts after.
  induction responses as [|[bp na] r IH]; intros acc a; cbn [fetch_loop].
  - destruct (Nat.ltb_spec (length acc) total_posts); cbn [snd app];
      [|constructor].
    constructor; [simpl; lia | constructor].
  - destruct (Nat.ltb_spec (length acc) total_posts); cbn [snd]; [|constructor].
    destruct bp as [|x bp]; cbn [snd app].
    + constructor; [simpl; lia | constructor].
    + rewrite fetch_loop_events. apply Forall_app. split; [|apply IH].
      destruct ((length (acc ++ x :: bp) <? total_posts) && cursor_truthy na);
        cbn [app]; repeat (constructor; [simpl; try lia; exact I|]); constructor.
Qed.

Lemma fetch_loop_count (total_posts : nat) (responses : list batch)
  (all_posts : list Post) (after : option str) :
  length (requests (snd (fetch_loop total_posts responses all_posts after [])))
  <= total_posts - length all_posts.
Proof.
  revert all_posts after.
  induction responses as [|[bp na] r IH]; intros acc a; cbn [fetch_loop].
  - destruct (Nat.ltb_spec (length acc) total_posts); cbn [snd app]; simpl; lia.
  - destruct (Nat.ltb_spec (length acc) total_posts); cbn [snd]; [|simpl; lia].
    destruct bp as [|x bp]; cbn [snd app]; [simpl; lia|].
    rewrite fetch_loop_events, requests_app, length_app.
    specialize (IH (acc ++ x :: bp) na). rewrite length_app in IH. simpl in IH.
    destruct ((length (acc ++ x :: bp) <? total_posts) && cursor_truthy na);
      cbn [app]; simpl; lia.
Qed.

(** X17.  Every request asks for at least one post, for no more than 100
    and for no more than the number asked of the fetch; and the fetch makes
    no more requests than the number of posts asked for. *)
Theorem fetch_requests_bounded (access_token : option str) (total_posts : nat)
  (responses : list batch) :
  (forall limit after,
      In (Request limit after)
         (snd (fetch_penpals_posts access_token total_posts responses)) ->
      1 <= limit <= 100 /\ limit <= total_posts)
  /\ length (requests (snd (fetch_penpals_posts access_token total_posts responses)))
     <= total_posts.
Proof.
  unfold fetch_penpals_posts.
  destruct (negb (cursor_truthy access_token)); [split; [intros ? ? []|simpl; lia]|].
  pose proof (fetch_loop_limits total_posts responses [] None) as L.
  pose proof (fetch_loop_count total_posts responses [] None) as C.
  destruct (fetch_loop total_posts responses [] None []) as [posts events].
  simpl in *. split; [|lia].
  intros limit after H. rewrite Forall_forall in L. apply (L _ H).
Qed.

Lemma fetch_loop_paced (total_posts : nat) (responses : list batch)
  (all_posts : list Post) (after : option str) :
  paced (snd (fetch_loop total_posts responses all_posts after []))
  /\ (length all_posts < total_posts ->
      exists limit tl,
        snd (fetch_loop total_posts responses all_posts after [])
        = Request limit after :: tl).
Proof.
  revert all_posts after.
  induction responses as [|[bp na] r IH]; intros acc a; cbn [fetch_loop].
  - destruct (Nat.ltb_spec (length acc) total_posts); cbn [snd app].
    + split; [repeat constructor | intros _; eexists _, _; reflexivity].
    + split; [constructor | lia].
  - destruct (Nat.ltb_spec (length acc) total_posts); cbn [snd];
      [|split; [constructor | lia]].
    destruct bp as [|x bp]; cbn [snd app].
    + split; [repeat constructor | intros _; eexists _, _; reflexivity].
    + rewrite fetch_loop_events.
      destruct (IH (acc ++ x :: bp) na) as [P Hd].
      destruct (Nat.ltb_spec (length (acc ++ x :: bp)) total_posts) as [Hlt | Hge];
        cbn [andb].
      * destruct (Hd Hlt) as (limit & tl & E). rewrite E in *.
        destruct (cursor_truthy na); cbn [app];
          (split; [|intros _; eexists _, _; reflexivity]).
        -- apply paced_sleep. exact P.
        -- apply paced_request. exact P.
      * cbn [app]. split; [|intros _; eexists _, _; reflexivity].
        apply paced_request. exact P.
Qed.

Lemma fetch_loop_cursors (total_posts : nat) (responses : list batch)
  (all_posts : list Post) (after : option str) :
  exists n,
    map after_of (requests (snd (fetch_loop total_posts responses all_posts after [])))
    = firstn n (after :: map snd responses).
Proof.
  revert all_posts after.
  induction responses as [|[bp na] r IH]; intros acc a; cbn [fetch_loop].
  - destruct (length acc <? total_posts); cbn [snd app];
      [exists 1 | exists 0]; reflexivity.
  - destruct (length acc <? total_posts); cbn [snd]; [|exists 0; reflexivity].
    destruct bp as [|x bp]; cbn [snd app]; [exists 1; reflexivity|].
    rewrite fetch_loop_events, requests_app, map_app.
    destruct (IH (acc ++ x :: bp) na) as (n & E). rewrite E.
    exists (S n).
    destruct ((length (acc ++ x :: bp) <? total_posts) && cursor_truthy na);
      reflexivity.
Qed.

(** X18.  The fetch pauses only between two requests: every pause in the
    trace comes right after a request and right before the next one, so none
    is taken after the last batch.  The first request carries no cursor and
    every later one the cursor of the answer before it. *)
Theorem fetch_pacing_and_cursors (access_token : option str) (total_posts : nat)
  (responses : list batch) :
  paced (snd (fetch_penpals_posts access_token total_posts responses))
  /\ exists n,
       map after_of
           (requests (snd (fetch_penpals_posts access_token total_posts responses)))
       = firstn n (None :: map snd responses).
Proof.
  unfold fetch_penpals_posts.
  destruct (negb (cursor_truthy access_token)).
  - split; [constructor | exists 0; reflexivity].
  - destruct (fetch_loop_paced total_posts responses [] None) as [P _].
    destruct (fetch_loop_cursors total_posts responses [] None) as (n & E).
    destruct (fetch_loop total_posts responses [] None []) as [posts events].
    simpl in *. split; [exact P | exists n; exact E].
Qed.

(** ** The results of one tab *)

Lemma sort_results_perm (df : list Post) (sort_option : str) :
  Permutation (sort_results df sort_option) df.
Proof.
  destruct df as [|p df]; [reflexivity|]. unfold sort_results.
  destruct (str_eqb sort_option (py "Date Posted")).
  - apply (stable_sort_perm more_recent_first).
  - destruct (str_eqb sort_option (py "Title Alphabetically")); [|reflexivity].
    unfold sort_na_last.
    rewrite (filter_all (fun x => negb (key_isna x))) by reflexivity.
    rewrite (filter_none key_isna) by reflexivity.
    rewrite app_nil_r. apply (stable_sort_perm key_leb).
Qed.

Lemma filter_by_keywords_In (current_keywords age_keywords : list str)
  (df : list Post) (p : Post) :
  In p (filter_by_keywords current_keywords age_keywords df) <->
  In p df /\ (truthy current_keywords || truthy age_keywords = true ->
              has_keyword_match current_keywords age_keywords p = true).
Proof.
  unfold filter_by_keywords.
  destruct (truthy current_keywords || truthy age_keywords).
  - rewrite filter_In. tauto.
  - split; [intros H; split; [exact H | discriminate] | tauto].
Qed.

Section Tab.
Variable strptime : str -> option Z.
Variable fromtimestamp : Z -> option Z.
Variable now : Z.
Variables current_keywords age_keywords : list str.
Variables current_recency current_sort : str.

Local Abbreviation shown :=
  (display_subreddit_results strptime fromtimestamp now current_keywords
     age_keywords current_recency current_sort).

Local Abbreviation passes_filters :=
  (passes_side_bar_filters strptime fromtimestamp now current_keywords
     age_keywords current_recency).

Lemma relevant_posts_In (subreddit_data : list Post) (p : Post) :
  In p (sort_results
          (filter_posts_by_recency strptime fromtimestamp now
             (filter_by_keywords current_keywords age_keywords subreddit_data)
             current_recency) current_sort) <->
  In p subreddit_data /\ passes_filters p.
Proof.
  unfold passes_side_bar_filters. split.
  - intros H. apply (Permutation_in _ (sort_results_perm _ _)) in H.
    apply recent_In in H. destruct H as [H Hw].
    apply filter_by_keywords_In in H. tauto.
  - intros (H & Hk & Hw).
    apply (Permutation_in _ (Permutation_sym (sort_results_perm _ _))).
    apply recent_In. split; [|exact Hw]. apply filter_by_keywords_In. tauto.
Qed.

Lemma shown_unfold (current_page : Z) (subreddit_data : list Post) :
  shown current_page subreddit_data
  = match sort_results
            (filter_posts_by_recency strptime fromtimestamp now
               (filter_by_keywords current_keywords age_keywords subreddit_data)
               current_recency) current_sort with
    | [] => []
    | l => page_posts l current_page
    end.
Proof.
  unfold display_subreddit_results.
  destruct subreddit_data as [|p0 d] eqn:Ed.
  - unfold filter_by_keywords.
    destruct (truthy current_keywords || truthy age_keywords); reflexivity.
  - rewrite <- Ed.
    destruct (filter_posts_by_recency strptime fromtimestamp now
                (filter_by_keywords current_keywords age_keywords subreddit_data)
                current_recency) as [|q l] eqn:E; [reflexivity|].
    destruct (sort_results (q :: l) current_sort) as [|x s] eqn:Es; [|reflexivity].
    pose proof (sort_results_perm (q :: l) current_sort) as P. rewrite Es in P.
    apply Permutation_nil in P. discriminate.
Qed.

Lemma page_posts_In (l : list Post) (current_page : Z) (p : Post) :
  In p (page_posts l current_page) -> In p l.
Proof.
  unfold page_posts, iloc. intros H.
  set (n := Z.to_nat _) in H. set (m := Z.to_nat _) in H.
  rewrite <- (firstn_skipn m l). apply in_or_app. right.
  rewrite <- (firstn_skipn n (skipn m l)). apply in_or_app. left. exact H.
Qed.

(** X19.  A tab never shows more than 100 posts, and every post it shows
    is a post of its subreddit that passes the filters of the side bar: it
    matches the keywords and the age range, if any is given, and lies within
    the chosen time frame. *)
Theorem tab_shows_only_matching_posts (current_page : Z)
  (subreddit_data : list Post) :
  length (shown current_page subreddit_data) <= 100
  /\ forall p, In p (shown current_page subreddit_data) ->
               In p subreddit_data /\ passes_filters p.
Proof.
  rewrite shown_unfold.
  destruct (sort_results _ current_sort) as [|x s] eqn:Es.
  - split; [simpl; lia | intros p []].
  - rewrite <- Es. split; [apply page_posts_length|].
    intros p H. apply page_posts_In in H. apply relevant_posts_In. exact H.
Qed.

(** X20.  No matching post is left out: every post of the subreddit that
    passes the filters of the side bar is shown on one of the pages, whatever
    the sort order. *)
Theorem tab_shows_every_matching_post (subreddit_data : list Post) (p : Post) :
  In p subreddit_data -> passes_filters p ->
  exists current_page, (0 <= current_page)%Z
                       /\ In p (shown current_page subreddit_data).
Proof.
  intros Hin Hp.
  assert (H : In p (sort_results
                      (filter_posts_by_recency strptime fromtimestamp now
                         (filter_by_keywords current_keywords age_keywords
                            subreddit_data) current_recency) current_sort))
    by (apply relevant_posts_In; tauto).
  set (l := sort_results _ current_sort) in *.
  rewrite <- (page_posts_concat l) in H. apply in_concat in H.
  destruct H as (pg & Hpg & H). apply in_map_iff in Hpg.
  destruct Hpg as (i & <- & _).
  exists (Z.of_nat i). split; [lia|]. rewrite shown_unfold. fold l.
  destruct l as [|x s] eqn:El; [|exact H].
  unfold page_posts, iloc in H. rewrite skipn_nil, firstn_nil in H. exact H.
Qed.

End Tab.

Lemma tab_shows_every_matching_post_example :
  exists current_page,
    (0 <= current_page)%Z
    /\ In garbled_post
         (display_subreddit_results strptime_fixed (fromtimestamp_fixed 0) sample_now
            [py "hello"] [] (py "Today") (py "Date Posted") current_page
            [august_post; garbled_post]).
Proof.
  apply tab_shows_every_matching_post.
  - right. left. reflexivity.
  - split; [intros _|]; vm_compute; reflexivity.
Defined.

(** ** Environment file *)








Lemma lstrip_trimmed (s : str) : trimmed s -> lstrip s = s.
Proof.
  intros H. destruct s as [|c s]; [reflexivity|]. simpl.
  destruct (H c s) as [Hc _]. rewrite (Hc eq_refl). reflexivity.
Qed.





Lemma split_first_none (sep : ascii) (s : str) :
  split_first sep s = None <-> ~ In sep s.
Proof.
  induction s as [|c s IH]; simpl; [tauto|].
  destruct (Ascii.eqb_spec c sep) as [-> | Hne].
  - split; [discriminate | intros H; exfalso; apply H; left; reflexivity].
  - destruct (split_first sep s) as [[a b]|].
    + split; [discriminate|]. intros H. exfalso.
      assert (Hs : ~ In sep s) by (intros Hin; apply H; right; exact Hin).
      apply IH in Hs. discriminate.
    + split; [|reflexivity]. intros _ [E | Hin]; [congruence|].
      destruct IH as [IH _]. apply (IH eq_refl Hin).
Qed.


Lemma holds_nul_In (s : str) : holds_nul s = true <-> In nul s.
Proof.
  unfold holds_nul. rewrite existsb_exists. split.
  - intros (c & Hc & E). apply Ascii.eqb_eq in E. subst c. exact Hc.
  - intros H. exists nul. split; [exact H | apply Ascii.eqb_refl].
Qed.

Lemma environ_accepts_false (key value : str) :
  environ_accepts key value = false <->
  key = [] \/ In nul key \/ In nul value.
Proof.
  unfold environ_accepts. destruct key as [|c key].
  - split; auto.
  - rewrite <- !holds_nul_In.
    destruct (holds_nul (c :: key)), (holds_nul value); simpl;
      split; auto; intros [H | [H | H]]; discriminate.
Qed.

Lemma load_env_lines_app (before rest : list str) :
  snd (load_env_lines before) = false ->
  load_env_lines (before ++ rest)
  = (fst (load_env_lines before) ++ fst (load_env_lines rest),
     snd (load_env_lines rest)).
Proof.
  induction before as [|line before IH]; simpl; intros H.
  - destruct (load_env_lines rest); reflexivity.
  - destruct (load_env_line line) as [|key value|].
    + apply IH. exact H.
    + destruct (load_env_lines before) as [l r] eqn:E. simpl in H. subst r.
      rewrite (IH eq_refl). reflexivity.
    + discriminate.
Qed.

Lemma environ_accepts_true (key value : str) :
  environ_accepts key value = true <->
  key <> [] /\ ~ In nul key /\ ~ In nul value.
Proof.
  pose proof (environ_accepts_false key value) as H.
  destruct (environ_accepts key value).
  - split; [intros _ | reflexivity].
    repeat split; intros E; assert (true = false) by (apply H; tauto);
      discriminate.
  - split; [discriminate|]. intros (H1 & H2 & H3).
    destruct H as [H _]. destruct (H eq_refl) as [E | [E | E]]; tauto.
Qed.

(** X21.  A line of the file is passed over exactly when, white space
    around it apart, it is empty, starts with '#' or holds no '='.  Any
    other line is an assignment or raises: it is the assignment of its
    value to its key when the key is not empty and neither holds the
    character of code 0, and it raises otherwise, so a line that starts with
    '=' raises.  The line that raises ends the loop: the assignments of the
    lines before it are made, none of a line after it. *)
Theorem env_line_outcome (line : str) :
  (load_env_line line = Skipped <->
   strip line = [] \/ hd_error (strip line) = Some "#"%char
   \/ ~ In "="%char (strip line))
  /\ (forall key value,
        load_env_line line = Assigned key value <->
        parse_env_line line = Some (key, value)
        /\ key <> [] /\ ~ In nul key /\ ~ In nul value)
  /\ (load_env_line line = Raised <->
      exists key value, parse_env_line line = Some (key, value)
        /\ (key = [] \/ In nul key \/ In nul value))
  /\ (hd_error (strip line) = Some "="%char -> load_env_line line = Raised)
  /\ (load_env_line line = Raised ->
      forall before rest, snd (load_env_lines before) = false ->
        load_env_lines (before ++ line :: rest)
        = (fst (load_env_lines before), true)).
Proof.
  assert (Hskip : load_env_line line = Skipped <-> parse_env_line line = None).
  { unfold load_env_line. destruct (parse_env_line line) as [[k v]|].
    - destruct (environ_accepts k v); split; discriminate.
    - tauto. }
  split; [|split; [|split; [|split]]].
  - rewrite Hskip. unfold parse_env_line.
    destruct (strip line) as [|c s] eqn:E.
    + split; [auto | reflexivity].
    + simpl hd_error. destruct (Ascii.eqb_spec c "#"%char) as [-> | Hne].
      * split; [auto | reflexivity].
      * destruct (split_first "=" (c :: s)) as [[k v]|] eqn:Es.
        -- split; [discriminate|].
           intros [H | [H | H]]; [discriminate | congruence |].
           apply split_first_none in H. congruence.
        -- split; [|reflexivity]. intros _. right. right.
           apply split_first_none. exact Es.
  - intros key value. unfold load_env_line.
    destruct (parse_env_line line) as [[k v]|].
    + destruct (environ_accepts k v) eqn:E.
      * apply environ_accepts_true in E. split.
        -- intros H. injection H as <- <-. tauto.
        -- intros (H & _). injection H as <- <-. reflexivity.
      * split; [discriminate|]. intros (H & Hk). injection H as <- <-.
        apply environ_accepts_true in Hk. congruence.
    + split; [discriminate|]. intros (H & _). discriminate.
  - unfold load_env_line. destruct (parse_env_line line) as [[k v]|].
    + destruct (environ_accepts k v) eqn:E.
      * split; [discriminate|]. intros (key & value & H & Hk).
        injection H as <- <-. apply environ_accepts_false in Hk. congruence.
      * split; [|reflexivity]. intros _. exists k, v.
        split; [reflexivity | apply environ_accepts_false; exact E].
    + split; [discriminate|]. intros (key & value & H & _). discriminate.
  - unfold load_env_line, parse_env_line.
    destruct (strip line) as [|c s]; [discriminate|]. simpl.
    intros H. injection H as ->. reflexivity.
  - intros Hr before rest Hb. rewrite load_env_lines_app by exact Hb.
    simpl. rewrite Hr. simpl. rewrite app_nil_r. reflexivity.
Qed.


